(** * ECH codec: HTTPS-record decoder, ECHConfigList decoder, DNS-name
      validator and outer-extension encoder

    A shallow embedding of [ech.go] and of [parseHttpsRecord] of [main.go],
    and the properties of the codec stated against it.  [ech.go] reads and
    writes through [golang.org/x/crypto/cryptobyte], an imported library
    whose source is not part of the repository: the [String] reads and the
    [Builder] writes that [ech.go] calls are modelled here after the
    library, method by method. *)

From Stdlib Require Import Strings.String.
From Stdlib Require Import ZArith List Lia Bool.
From Stdlib Require Init.Byte Strings.Byte.
From coqutil Require Import Byte.
Import ListNotations.

Local Open Scope Z_scope.
Local Open Scope list_scope.

(** ** Bytes, integers and results *)

(** [len(x)] of Go: the length of a slice or string as a (signed) integer. *)
Definition len {A : Type} (l : list A) : Z := Z.of_nat (length l).

(** [uint16(hi)<<8 | uint16(lo)]: the big-endian reading of two bytes. *)
Definition be16 (hi lo : byte) : Z :=
  Z.lor (Z.shiftl (byte.unsigned hi) 8) (byte.unsigned lo).

(** Conversion to [uint16] keeps the low 16 bits. *)
Definition uint16 (z : Z) : Z := z mod 65536.

(** Conversion to [uint8] (Go's [byte(v)]) keeps the low 8 bits. *)
Definition uint8 (z : Z) : byte := byte.of_Z z.

(** The errors the two files and the builder can return. *)
Inductive error : Type :=
| errMalformedECHConfig                      (* "tls: malformed ECHConfigList" *)
| errInvalidDataLength                       (* "invalid data length" *)
| errInvalidTargetName                       (* "invalid target name in data" *)
| errInvalidParameterLength                  (* "invalid parameter length" *)
| errPendingChildLength (length lenLen : Z). (* "cryptobyte: pending child length %d exceeds %d-byte length prefix" *)

(** A Go [(value, error)] return.  The loops of the source are bounded here
    by a step count; [OutOfFuel] is the outcome of a loop that used up its
    count, and is shown below never to be returned by a top-level function. *)
Inductive res (A : Type) : Type :=
| Ok (a : A)
| Err (e : error)
| OutOfFuel.
Arguments Ok {A} a.
Arguments Err {A} e.
Arguments OutOfFuel {A}.

(** ** cryptobyte: [String] *)

Module cryptobyte.

(** [type String []byte]: the bytes not read yet. *)
Definition String : Type := list byte.

(** [func (s *String) read(n int) []byte]: the next [n] bytes and the
    advanced string, or [nil] (here [None], with [s] left as it was). *)
Definition read (n : Z) (s : String) : option (list byte * String) :=
  if (len s <? n) || (n <? 0) then None
  else Some (firstn (Z.to_nat n) s, skipn (Z.to_nat n) s).

(** [func (s *String) Skip(n int) bool]. *)
Definition Skip (n : Z) (s : String) : option String :=
  match read n s with
  | None => None
  | Some (_, s') => Some s'
  end.

(** [func (s *String) ReadUint8(out *uint8) bool]. *)
Definition ReadUint8 (s : String) : option (Z * String) :=
  match read 1 s with
  | None => None
  | Some (v, s') => Some (byte.unsigned (nth 0 v Byte.x00), s')
  end.

(** [func (s *String) ReadUint16(out *uint16) bool]. *)
Definition ReadUint16 (s : String) : option (Z * String) :=
  match read 2 s with
  | None => None
  | Some (v, s') => Some (be16 (nth 0 v Byte.x00) (nth 1 v Byte.x00), s')
  end.

(** The [uint32] accumulated from the length bytes:
    [length = length << 8; length = length | uint32(b)]. *)
Definition prefixLength (lenBytes : list byte) : Z :=
  fold_left (fun length b => Z.lor (Z.shiftl length 8 mod 2 ^ 32) (byte.unsigned b))
            lenBytes 0.

(** [func (s *String) readLengthPrefixed(lenLen int, outChild *String) bool]. *)
Definition readLengthPrefixed (lenLen : Z) (s : String) : option (String * String) :=
  match read lenLen s with
  | None => None
  | Some (lenBytes, s1) =>
      match read (prefixLength lenBytes) s1 with
      | None => None
      | Some (v, s2) => Some (v, s2)
      end
  end.

Definition ReadUint8LengthPrefixed : String -> option (String * String) :=
  readLengthPrefixed 1.
Definition ReadUint16LengthPrefixed : String -> option (String * String) :=
  readLengthPrefixed 2.

(** [func (s String) Empty() bool]. *)
Definition Empty (s : String) : bool := len s =? 0.

(** *** cryptobyte: [Builder] *)

(** The fields of [Builder] that a builder without a fixed-size buffer
    uses.  A pending child is not a field here: [addLengthPrefixed] runs
    the continuation on the child and flushes it at once. *)
Record Builder : Type := mkBuilder {
  err : option error;
  result : list byte;
  offset : Z;
  pendingLenLen : Z
}.

(** [var b cryptobyte.Builder]: the zero value. *)
Definition zeroBuilder : Builder := mkBuilder None [] 0 0.

(** [func (b *Builder) add(bytes ...byte)].  Writes after an error are
    ignored.  The sum of two slice lengths does not wrap in [int], so the
    overflow branch of the library is not reachable. *)
Definition add (bytes : list byte) (b : Builder) : Builder :=
  match err b with
  | Some _ => b
  | None => mkBuilder (err b) (result b ++ bytes) (offset b) (pendingLenLen b)
  end.

Definition AddUint8 (v : Z) : Builder -> Builder := add [uint8 v].
Definition AddUint16 (v : Z) : Builder -> Builder :=
  add [uint8 (Z.shiftr v 8); uint8 v].
Definition AddBytes (v : list byte) : Builder -> Builder := add v.

(** [r[i] = v] on a slice, for an index in range (the only use below
    writes into the placeholder bytes that [add] has just appended). *)
Definition store (r : list byte) (i : Z) (v : byte) : list byte :=
  firstn (Z.to_nat i) r ++ v :: skipn (S (Z.to_nat i)) r.

(** The loop of [flushChild]:
    [for i := child.pendingLenLen - 1; i >= 0; i-- {
       child.result[child.offset+i] = uint8(l); l >>= 8 }],
    returning the patched slice and what is left of [l]. *)
Fixpoint writeLength (i : nat) (r : list byte) (off l : Z) : list byte * Z :=
  match i with
  | O => (r, l)
  | S i' => writeLength i' (store r (off + Z.of_nat i') (uint8 l)) off (Z.shiftr l 8)
  end.

(** [func (b *Builder) flushChild()], for a child that is not ASN.1. *)
Definition flushChild (b child : Builder) : Builder :=
  match err child with
  | Some e => mkBuilder (Some e) (result b) (offset b) (pendingLenLen b)
  | None =>
      let length := len (result child) - pendingLenLen child - offset child in
      let '(r, l) := writeLength (Z.to_nat (pendingLenLen child)) (result child)
                                 (offset child) length in
      if negb (l =? 0) then
        mkBuilder (Some (errPendingChildLength length (pendingLenLen child)))
                  (result b) (offset b) (pendingLenLen b)
      else mkBuilder (err b) r (offset b) (pendingLenLen b)
  end.

(** [func (b *Builder) addLengthPrefixed(lenLen int, isASN1 bool, f BuilderContinuation)]
    with [isASN1 = false]. *)
Definition addLengthPrefixed (lenLen : Z) (f : Builder -> Builder) (b : Builder)
    : Builder :=
  match err b with
  | Some _ => b
  | None =>
      let off := len (result b) in
      let b := add (repeat Byte.x00 (Z.to_nat lenLen)) b in
      let child := mkBuilder None (result b) off lenLen in
      flushChild b (f child)
  end.

Definition AddUint16LengthPrefixed : (Builder -> Builder) -> Builder -> Builder :=
  addLengthPrefixed 2.

(** [func (b *Builder) Bytes() ([]byte, error)]. *)
Definition Bytes (b : Builder) : res (list byte) :=
  match err b with
  | Some e => Err e
  | None => Ok (skipn (Z.to_nat (offset b)) (result b))
  end.

End cryptobyte.

(** ** ech.go: the data model *)

Record echCipher : Type := mkCipher {
  KDFID  : Z;
  AEADID : Z
}.

Record echExtension : Type := mkExtension {
  Type_ : Z;
  Data  : list byte
}.

Record echConfig : Type := mkConfig {
  raw : list byte;
  Version : Z;
  Length  : Z;
  ConfigID  : Z;
  KemID     : Z;
  PublicKey : list byte;
  SymmetricCipherSuite : list echCipher;
  MaxNameLength : Z;
  PublicName    : list byte;
  Extensions    : list echExtension
}.

Definition extensionEncryptedClientHello : Z := 0xfe0d.

(** ** ech.go: [parseECHConfigList] *)

Import cryptobyte.

(** [if !read { return nil, errMalformedECHConfig }]: a failed read ends the
    decode with the one error of this decoder. *)
Notation "'do' ( x , s' ) <- r ; k" :=
  (match r with
   | Some (x, s') => k
   | None => Err errMalformedECHConfig
   end)
  (at level 10, x name, s' name, r at level 100, k at level 200,
   format "'[v' 'do'  ( x ,  s' )  <-  r ; '/' k ']'").

(** Lines 85-94: [for !cipherSuites.Empty() { ... }], appending to
    [ec.SymmetricCipherSuite]. *)
Fixpoint readCipherSuites (fuel : nat) (cipherSuites : String)
    (suites : list echCipher) : res (list echCipher) :=
  if Empty cipherSuites then Ok suites else
  match fuel with
  | O => OutOfFuel
  | S fuel =>
      do (kdf, cipherSuites) <- ReadUint16 cipherSuites;
      do (aead, cipherSuites) <- ReadUint16 cipherSuites;
      readCipherSuites fuel cipherSuites (suites ++ [mkCipher kdf aead])
  end.

(** Lines 107-116: [for !extensions.Empty() { ... }], appending to
    [ec.Extensions]. *)
Fixpoint readExtensions (fuel : nat) (extensions : String)
    (exts : list echExtension) : res (list echExtension) :=
  if Empty extensions then Ok exts else
  match fuel with
  | O => OutOfFuel
  | S fuel =>
      do (ty, extensions) <- ReadUint16 extensions;
      do (data, extensions) <- ReadUint16LengthPrefixed extensions;
      readExtensions fuel extensions (exts ++ [mkExtension ty data])
  end.

(** Lines 72-116: the fields of an entry of the recognized version, read
    from the list cursor [s] itself; [raw0], [version] and [length] are what
    lines 57-67 have put into [ec].  Returns [ec] and the advanced cursor. *)
Definition readFields (raw0 : list byte) (version length : Z) (s : String)
    : res (echConfig * String) :=
  do (configID, s) <- ReadUint8 s;
  do (kemID, s) <- ReadUint16 s;
  do (publicKey, s) <- ReadUint16LengthPrefixed s;
  do (cipherSuites, s) <- ReadUint16LengthPrefixed s;
  match readCipherSuites (List.length cipherSuites) cipherSuites [] with
  | Err e => Err e
  | OutOfFuel => OutOfFuel
  | Ok suites =>
      do (maxNameLength, s) <- ReadUint8 s;
      do (publicName, s) <- ReadUint8LengthPrefixed s;
      do (extensions, s) <- ReadUint16LengthPrefixed s;
      match readExtensions (List.length extensions) extensions [] with
      | Err e => Err e
      | OutOfFuel => OutOfFuel
      | Ok exts =>
          Ok (mkConfig raw0 version length configID kemID publicKey suites
                       maxNameLength publicName exts, s)
      end
  end.

(** Lines 55-119: [for len(s) > 0 { ... }]. *)
Fixpoint parseEntries (fuel : nat) (s : String) (configs : list echConfig)
    : res (list echConfig) :=
  if negb (0 <? len s) then Ok configs else
  match fuel with
  | O => OutOfFuel
  | S fuel =>
      let raw0 := s in
      do (version, s) <- ReadUint16 s;
      do (length, s) <- ReadUint16 s;
      if len raw0 <? length + 4 then Err errMalformedECHConfig else
      (* ec.raw[:ec.Length+4]: the bound is computed in uint16 *)
      let raw0 := firstn (Z.to_nat (uint16 (length + 4))) raw0 in
      if negb (version =? extensionEncryptedClientHello) then
        (* s.Skip(int(ec.Length)); continue -- the result is not looked at *)
        let s := match Skip length s with Some s' => s' | None => s end in
        parseEntries fuel s configs
      else
        match readFields raw0 version length s with
        | Err e => Err e
        | OutOfFuel => OutOfFuel
        | Ok (ec, s) => parseEntries fuel s (configs ++ [ec])
        end
  end.

(** Lines 44-121. *)
Definition parseECHConfigList (data : list byte) : res (list echConfig) :=
  let s : String := data in
  do (length, s) <- ReadUint16 s;
  if negb (length =? uint16 (len data - 2)) then Err errMalformedECHConfig else
  parseEntries (List.length s) s [].

(** ** ech.go: [generateOuterECHExt] *)

Definition generateOuterECHExt (id kdfID aeadID : Z) (encodedKey payload : list byte)
    : res (list byte) :=
  let b := zeroBuilder in
  let b := AddUint8 0 b in (* outer *)
  let b := AddUint16 kdfID b in
  let b := AddUint16 aeadID b in
  let b := AddUint8 id b in
  let b := AddUint16LengthPrefixed (fun b => AddBytes encodedKey b) b in
  let b := AddUint16LengthPrefixed (fun b => AddBytes payload b) b in
  Bytes b.

(** ** ech.go: [validDNSName] *)

(** A Go string is its bytes. *)
Definition gostring : Type := list byte.

Definition bytes_of (s : String.string) : gostring := String.list_byte_of_string s.

(** [strings.Split(s, sep)] for a separator of one byte: the pieces between
    the occurrences of [sep]; a string without [sep] is its only piece. *)
Fixpoint Split (s : gostring) (sep : byte) : list gostring :=
  match s with
  | [] => [[]]
  | c :: t =>
      if Byte.eqb c sep then [] :: Split t sep
      else match Split t sep with
           | l :: ls => (c :: l) :: ls
           | [] => [[c]]
           end
  end.

Definition RuneError : Z := 0xFFFD.

(** A UTF-8 continuation byte, [0x80..0xBF]. *)
Definition continuation (b : byte) : bool :=
  (0x80 <=? byte.unsigned b) && (byte.unsigned b <=? 0xBF).

(** The code point that starts a string and the number of bytes it takes, as
    [for i, r := range] decodes it: an ASCII byte is itself; a well-formed
    sequence of 2, 3 or 4 bytes is its code point; anything else is
    [RuneError] of width 1. *)
Definition decodeRune (s : gostring) : Z * nat :=
  match s with
  | [] => (RuneError, 1%nat)
  | b0 :: t =>
      let x := byte.unsigned b0 in
      if x <? 0x80 then (x, 1%nat)
      else if (0xC2 <=? x) && (x <=? 0xDF) then
        match t with
        | b1 :: _ =>
            if continuation b1
            then ((x mod 32) * 64 + byte.unsigned b1 mod 64, 2%nat)
            else (RuneError, 1%nat)
        | _ => (RuneError, 1%nat)
        end
      else if (0xE0 <=? x) && (x <=? 0xEF) then
        match t with
        | b1 :: b2 :: _ =>
            let lo := if x =? 0xE0 then 0xA0 else 0x80 in
            let hi := if x =? 0xED then 0x9F else 0xBF in
            if (lo <=? byte.unsigned b1) && (byte.unsigned b1 <=? hi) && continuation b2
            then ((x mod 16) * 4096 + (byte.unsigned b1 mod 64) * 64
                  + byte.unsigned b2 mod 64, 3%nat)
            else (RuneError, 1%nat)
        | _ => (RuneError, 1%nat)
        end
      else if (0xF0 <=? x) && (x <=? 0xF4) then
        match t with
        | b1 :: b2 :: b3 :: _ =>
            let lo := if x =? 0xF0 then 0x90 else 0x80 in
            let hi := if x =? 0xF4 then 0x8F else 0xBF in
            if (lo <=? byte.unsigned b1) && (byte.unsigned b1 <=? hi)
               && continuation b2 && continuation b3
            then ((x mod 8) * 262144 + (byte.unsigned b1 mod 64) * 4096
                  + (byte.unsigned b2 mod 64) * 64 + byte.unsigned b3 mod 64, 4%nat)
            else (RuneError, 1%nat)
        | _ => (RuneError, 1%nat)
        end
      else (RuneError, 1%nat)
  end.

(** Lines 151-158: [for i, r := range l { ... }] from byte index [i] on;
    [rest] is [l[i:]], and [skip] counts the bytes of the rune decoded last
    that are still to be stepped over.  [true] when the loop ends without
    [return false]. *)
Fixpoint rangeLabel (rest : gostring) (i : Z) (skip : nat) (labelLen : Z) : bool :=
  match rest with
  | [] => true
  | _ :: t =>
      match skip with
      | S k => rangeLabel t (i + 1) k labelLen
      | O =>
          let '(r, w) := decodeRune rest in
          if (r =? 0x2D) && ((i =? 0) || (i =? labelLen - 1)) then false
          else if ((r <? 0x30) || (r >? 0x39)) && ((r <? 0x61) || (r >? 0x7A))
                  && ((r <? 0x41) || (r >? 0x5A)) && negb (r =? 0x2D) then false
          else rangeLabel t (i + 1) (Nat.pred w) labelLen
      end
  end.

(** Lines 147-158: the body of [for _, l := range labels]; [true] when the
    body does not [return false]. *)
Definition validLabel (l : gostring) : bool :=
  let labelLen := len l in
  if labelLen =? 0 then false
  else rangeLabel l 0 0 labelLen.

Definition validDNSName (name : gostring) : bool :=
  if len name >? 253 then false
  else
    let labels := Split name Byte.x2e in
    if len labels <=? 1 then false
    else forallb validLabel labels.

(** ** main.go: [parseHttpsRecord] *)

Record SvcParam : Type := mkSvcParam {
  Key   : Z;
  Value : list byte
}.

Record HttpsRecord : Type := mkHttpsRecord {
  Priority   : Z;
  TargetName : gostring;
  Params     : list SvcParam
}.

(** [data[i]], for an index in range (every use below is guarded). *)
Definition at_ (data : list byte) (i : Z) : byte := nth (Z.to_nat i) data Byte.x00.

(** [data[lo:hi]]. *)
Definition slice (data : list byte) (lo hi : Z) : list byte :=
  firstn (Z.to_nat (hi - lo)) (skipn (Z.to_nat lo) data).

(** Lines 62-64: [for idx < len(data) && data[idx] != 0 { idx++ }]. *)
Fixpoint scanName (fuel : nat) (data : list byte) (idx : Z) : res Z :=
  if (idx <? len data) && negb (byte.unsigned (at_ data idx) =? 0) then
    match fuel with
    | O => OutOfFuel
    | S fuel => scanName fuel data (idx + 1)
    end
  else Ok idx.

(** Lines 72-84: [for idx+4 <= len(data) { ... }]. *)
Fixpoint parseParams (fuel : nat) (data : list byte) (idx : Z)
    (params : list SvcParam) : res (list SvcParam) :=
  if idx + 4 <=? len data then
    match fuel with
    | O => OutOfFuel
    | S fuel =>
        let key := be16 (at_ data idx) (at_ data (idx + 1)) in
        let length := be16 (at_ data (idx + 2)) (at_ data (idx + 3)) in
        let idx := idx + 4 in
        if idx + length >? len data then Err errInvalidParameterLength else
        let value := slice data idx (idx + length) in
        parseParams fuel data (idx + length) (params ++ [mkSvcParam key value])
    end
  else Ok params.

(** Lines 50-87. *)
Definition parseHttpsRecord (data : list byte) : res HttpsRecord :=
  if len data <? 3 then Err errInvalidDataLength else
  let priority := be16 (at_ data 0) (at_ data 1) in
  match scanName (length data) data 2 with
  | Err e => Err e
  | OutOfFuel => OutOfFuel
  | Ok idx =>
      if idx >=? len data then Err errInvalidTargetName else
      let targetName := slice data 2 idx in
      let idx := idx + 1 in
      match parseParams (length data) data idx [] with
      | Err e => Err e
      | OutOfFuel => OutOfFuel
      | Ok params => Ok (mkHttpsRecord priority targetName params)
      end
  end.

(** ** main.go: the parameter loop of [getECHConfig] *)

(** Lines 136-142 of [getECHConfig]:
    [var echConfig []byte
     for _, param := range record.Params {
       if param.Key == 0x05 { echConfig = param.Value } }],
    as a function of [record.Params]; the [nil] slice is the empty list. *)
Definition echConfigParam (params : list SvcParam) : list byte :=
  fold_left (fun echConfig param =>
               if Key param =? 0x05 then Value param else echConfig)
            params [].

(** * Wire formats and rules

    What the properties below are stated with: the serializations that the
    decoders invert, the rules of the validator in the words of its
    description, and the sample values used to instantiate the statements. *)

(** The big-endian 16-bit encoding of [v], most significant byte first. *)
Definition bigEndian16 (v : Z) : list byte :=
  [byte.of_Z (v / 256); byte.of_Z (v mod 256)].

(** ** The wire format of an ECHConfigList

    The serialization the decoder is the inverse of: what a well-formed
    list looks like on the wire, field by field. *)

Definition encodeSuite (c : echCipher) : list byte :=
  bigEndian16 (KDFID c) ++ bigEndian16 (AEADID c).

Definition encodeSuites (suites : list echCipher) : list byte :=
  flat_map encodeSuite suites.

Definition encodeExtension (e : echExtension) : list byte :=
  bigEndian16 (Type_ e) ++ bigEndian16 (len (Data e)) ++ Data e.

Definition encodeExtensions (exts : list echExtension) : list byte :=
  flat_map encodeExtension exts.

(** The contents of an entry of the recognized version, after its header. *)
Definition encodeBody (c : echConfig) : list byte :=
  byte.of_Z (ConfigID c) :: bigEndian16 (KemID c)
  ++ bigEndian16 (len (PublicKey c)) ++ PublicKey c
  ++ bigEndian16 (len (encodeSuites (SymmetricCipherSuite c)))
  ++ encodeSuites (SymmetricCipherSuite c)
  ++ byte.of_Z (MaxNameLength c)
  :: byte.of_Z (len (PublicName c)) :: PublicName c
  ++ bigEndian16 (len (encodeExtensions (Extensions c)))
  ++ encodeExtensions (Extensions c).


(** An entry: 2-byte version, 2-byte length, contents. *)
Definition encodeEntry (version : Z) (contents : list byte) : list byte :=
  bigEndian16 version ++ bigEndian16 (len contents) ++ contents.

Definition encodeConfig (c : echConfig) : list byte :=
  encodeEntry (Version c) (encodeBody c).

(** An entry of a list: of a version the decoder does not know, with opaque
    contents, or of the recognized version. *)
Inductive entry : Type :=
| Unknown (version : Z) (contents : list byte)
| Known (c : echConfig).

Definition encodeListEntry (e : entry) : list byte :=
  match e with
  | Unknown version contents => encodeEntry version contents
  | Known c => encodeConfig c
  end.

Definition encodeEntries (es : list entry) : list byte :=
  flat_map encodeListEntry es.

(** The whole list: 2-byte length, entries. *)
Definition encodeList (es : list entry) : list byte :=
  bigEndian16 (len (encodeEntries es)) ++ encodeEntries es.

Definition recognized (es : list entry) : list echConfig :=
  flat_map (fun e => match e with Known c => [c] | Unknown _ _ => [] end) es.

Definition wfSuite (c : echCipher) : Prop :=
  0 <= KDFID c < 65536 /\ 0 <= AEADID c < 65536.

Definition wfExtension (e : echExtension) : Prop :=
  0 <= Type_ e < 65536 /\ len (Data e) < 65536.

(** A config value that is the decoding of its own wire form: every number
    fits its field, every length fits its prefix, and [raw], [Version] and
    [Length] are the entry's bytes, tag and declared length. *)
Record wfConfig (c : echConfig) : Prop := {
  wf_raw : raw c = encodeConfig c;
  wf_version : Version c = extensionEncryptedClientHello;
  wf_length : Length c = len (encodeBody c);
  wf_fits : len (encodeBody c) + 4 < 65536;
  wf_id : 0 <= ConfigID c < 256;
  wf_kem : 0 <= KemID c < 65536;
  wf_suites : Forall wfSuite (SymmetricCipherSuite c);
  wf_max : 0 <= MaxNameLength c < 256;
  wf_name : len (PublicName c) < 256;
  wf_exts : Forall wfExtension (Extensions c)
}.

Definition wfEntry (e : entry) : Prop :=
  match e with
  | Unknown version contents =>
      0 <= version < 65536 /\ version <> extensionEncryptedClientHello
      /\ len contents < 65536
  | Known c => wfConfig c
  end.

(** A config as a server would publish it: X25519 key of 32 bytes, one
    cipher suite, public name [a.bc], one extension. *)
Definition sampleFields : echConfig :=
  mkConfig [] extensionEncryptedClientHello 0 7 0x20
           (repeat Byte.x2a 32) [mkCipher 1 1] 64
           [Byte.x61; Byte.x2e; Byte.x62; Byte.x63]
           [mkExtension 0xff01 [Byte.x09]].

Definition sampleConfig : echConfig :=
  mkConfig (encodeConfig sampleFields) extensionEncryptedClientHello
           (len (encodeBody sampleFields)) 7 0x20
           (repeat Byte.x2a 32) [mkCipher 1 1] 64
           [Byte.x61; Byte.x2e; Byte.x62; Byte.x63]
           [mkExtension 0xff01 [Byte.x09]].

(** A list of 65536 bytes of entries -- one entry of another version, with
    65532 bytes of contents -- under the length prefix [00 00]. *)
Definition oversizedList : list byte :=
  [Byte.x00; Byte.x00]
  ++ [Byte.x00; Byte.x00; Byte.xff; Byte.xfc] ++ repeat Byte.x00 (Z.to_nat 65532).

(** A list of two entries: one of the recognized version whose declared
    length, 8, ends with [maxNameLength], and one of version [0x0700] with
    six bytes of contents. *)
Definition overrunList : list byte :=
  [Byte.x00; Byte.x16]
  ++ [Byte.xfe; Byte.x0d; Byte.x00; Byte.x08;
      Byte.x01; Byte.x00; Byte.x20; Byte.x00; Byte.x00; Byte.x00; Byte.x00; Byte.x00]
  ++ encodeEntry 0x0700 [Byte.xaa; Byte.xbb; Byte.xcc; Byte.xdd; Byte.x00; Byte.x00].

(** Fields that fit the wire: every number within its width, every length
    within its prefix, the whole within a 16-bit entry length. *)
Definition wfFields (c : echConfig) : Prop :=
  len (encodeBody c) + 4 < 65536
  /\ 0 <= ConfigID c < 256
  /\ 0 <= KemID c < 65536
  /\ Forall wfSuite (SymmetricCipherSuite c)
  /\ 0 <= MaxNameLength c < 256
  /\ len (PublicName c) < 256
  /\ Forall wfExtension (Extensions c).

(** What holds of every config the decoder returns: the recognized
    version, [raw] of the declared length behind its 4-byte header, and
    every number and length within the width of its field on the wire. *)
Definition configOk (ec : echConfig) : Prop :=
  Version ec = extensionEncryptedClientHello
  /\ 0 <= Length ec < 65536
  /\ len (raw ec) = Length ec + 4
  /\ firstn 4 (raw ec) = bigEndian16 (Version ec) ++ bigEndian16 (Length ec)
  /\ 0 <= ConfigID ec < 256
  /\ 0 <= KemID ec < 65536
  /\ len (PublicKey ec) < 65536
  /\ Forall wfSuite (SymmetricCipherSuite ec)
  /\ 0 <= MaxNameLength ec < 256
  /\ len (PublicName ec) < 256
  /\ Forall wfExtension (Extensions ec).

(** ** The wire format of an HTTPS record, as the decoder reads it *)

Definition encodeParam (p : SvcParam) : list byte :=
  bigEndian16 (Key p) ++ bigEndian16 (len (Value p)) ++ Value p.

Definition encodeParams (ps : list SvcParam) : list byte :=
  flat_map encodeParam ps.

(** Priority, the target name as one run of bytes up to a zero byte, and
    the parameters. *)
Definition encodeRecord (r : HttpsRecord) : list byte :=
  bigEndian16 (Priority r) ++ TargetName r ++ Byte.x00 :: encodeParams (Params r).

Definition wfParam (p : SvcParam) : Prop :=
  0 <= Key p < 65536 /\ len (Value p) < 65536.

Definition wfRecord (r : HttpsRecord) : Prop :=
  0 <= Priority r < 65536
  /\ Forall (fun b => b <> Byte.x00) (TargetName r)
  /\ Forall wfParam (Params r).

(** The record of the comment in [getECHConfig]: priority 1, root target,
    ALPN [h2] and two IPv4 hints. *)
Definition sampleRecord : HttpsRecord :=
  mkHttpsRecord 1 []
    [mkSvcParam 1 [Byte.x02; Byte.x68; Byte.x32];
     mkSvcParam 4 [Byte.xa2; Byte.x9f; Byte.x87; Byte.x4f;
                   Byte.xa2; Byte.x9f; Byte.x88; Byte.x4f]].

(** ** The rules of the domain-name validator *)

(** An ASCII letter, digit or hyphen. *)
Definition alnumOrHyphen (b : byte) : Prop :=
  let x := byte.unsigned b in
  0x30 <= x <= 0x39 \/ 0x61 <= x <= 0x7A \/ 0x41 <= x <= 0x5A \/ x = 0x2D.

Definition hyphen : byte := Byte.x2d.

(** A label as the rules have it: not empty, only ASCII letters, digits and
    hyphens, no hyphen first, no hyphen last. *)
Definition labelOk (l : gostring) : Prop :=
  l <> []
  /\ Forall alnumOrHyphen l
  /\ hd Byte.x00 l <> hyphen
  /\ last l Byte.x00 <> hyphen.

(** The number of characters (code points) of a string, counted as the
    range loop steps through it. *)
Fixpoint runeCountFrom (rest : gostring) (skip : nat) : Z :=
  match rest with
  | [] => 0
  | _ :: t =>
      match skip with
      | S k => runeCountFrom t k
      | O => 1 + runeCountFrom t (Nat.pred (snd (decodeRune rest)))
      end
  end.

Definition runeCount (s : gostring) : Z := runeCountFrom s 0.

(** The rules of the validator, for a given measure of the total length. *)
Definition nameOk (size : gostring -> Z) (name : gostring) : Prop :=
  size name <= 253
  /\ 2 <= len (Split name Byte.x2e)
  /\ Forall labelOk (Split name Byte.x2e).

(** * Properties *)

(** ** Bytes and 16-bit integers *)

Lemma unsigned_range (b : byte) : 0 <= byte.unsigned b < 256.
Proof. exact (byte.unsigned_range b). Qed.

Lemma unsigned_of_Z_small (z : Z) : 0 <= z < 256 -> byte.unsigned (byte.of_Z z) = z.
Proof.
  intros H. rewrite byte.unsigned_of_Z. unfold byte.wrap.
  apply Z.mod_small. lia.
Qed.

Lemma be16_eq (hi lo : byte) : be16 hi lo = byte.unsigned hi * 256 + byte.unsigned lo.
Proof.
  unfold be16.
  pose proof (unsigned_range hi) as Hhi. pose proof (unsigned_range lo) as Hlo.
  rewrite <- Z.add_lor_land.
  rewrite Z.shiftl_mul_pow2 by lia. change (2 ^ 8) with 256.
  assert (Hdisj : Z.land (byte.unsigned hi * 256) (byte.unsigned lo) = 0).
  { apply Z.bits_inj'. intros n Hn. rewrite Z.land_spec, Z.bits_0.
    destruct (Z.ltb_spec n 8) as [Hlt | Hge].
    - change 256 with (2 ^ 8). rewrite Z.mul_pow2_bits_low by lia. reflexivity.
    - rewrite (Z.bits_above_log2 (byte.unsigned lo) n); [apply andb_false_r | lia | ].
      destruct (Z.eq_dec (byte.unsigned lo) 0) as [-> | Hnz]; [simpl; lia | ].
      apply Z.lt_le_trans with 8; [ | lia].
      apply Z.log2_lt_pow2; lia. }
  rewrite Hdisj. lia.
Qed.

Lemma be16_range (hi lo : byte) : 0 <= be16 hi lo < 65536.
Proof.
  rewrite be16_eq.
  pose proof (unsigned_range hi). pose proof (unsigned_range lo). lia.
Qed.

Lemma be16_of_Z (v : Z) :
  0 <= v < 65536 -> be16 (byte.of_Z (v / 256)) (byte.of_Z (v mod 256)) = v.
Proof.
  intros Hv. rewrite be16_eq.
  pose proof (Z.mod_pos_bound v 256 eq_refl) as Hm.
  assert (Hd : 0 <= v / 256 < 256)
    by (split; [apply Z.div_pos; lia | apply Z.div_lt_upper_bound; lia]).
  rewrite !unsigned_of_Z_small by assumption.
  pose proof (Z.div_mod v 256). lia.
Qed.

Lemma uint8_shiftr8 (v : Z) : uint8 (Z.shiftr v 8) = byte.of_Z (v / 256).
Proof. unfold uint8. rewrite Z.shiftr_div_pow2 by lia. reflexivity. Qed.

Lemma uint8_low (v : Z) : uint8 v = byte.of_Z (v mod 256).
Proof.
  unfold uint8. apply byte.unsigned_inj.
  rewrite !byte.unsigned_of_Z. unfold byte.wrap. change (2 ^ 8) with 256.
  now rewrite Z.mod_mod by lia.
Qed.

Lemma len_app {A : Type} (a b : list A) : len (a ++ b) = len a + len b.
Proof. unfold len. rewrite length_app. lia. Qed.

Lemma len_cons {A : Type} (x : A) (l : list A) : len (x :: l) = 1 + len l.
Proof. unfold len. simpl length. lia. Qed.

Lemma len_nonneg {A : Type} (l : list A) : 0 <= len l.
Proof. unfold len. lia. Qed.

Lemma len_nil {A : Type} : len (@nil A) = 0.
Proof. reflexivity. Qed.

Lemma len_bigEndian16 (v : Z) : len (bigEndian16 v) = 2.
Proof. reflexivity. Qed.

(** ** cryptobyte reads *)

Lemma read_Some (n : Z) (s : String) (v : list byte) (s' : String) :
  read n s = Some (v, s') ->
  0 <= n /\ n <= len s /\ s = v ++ s' /\ len v = n.
Proof.
  unfold read. destruct (Z.ltb_spec (len s) n), (Z.ltb_spec n 0); simpl; try discriminate.
  intros [= <- <-]. repeat split; try lia.
  - now rewrite firstn_skipn.
  - unfold len in *. rewrite length_firstn. lia.
Qed.

Lemma read_None (n : Z) (s : String) :
  read n s = None -> len s < n \/ n < 0.
Proof.
  unfold read. destruct (Z.ltb_spec (len s) n), (Z.ltb_spec n 0); simpl;
    try discriminate; lia.
Qed.

Lemma read_app (v : list byte) (s : String) (n : Z) :
  n = len v -> read n (v ++ s) = Some (v, s).
Proof.
  intros ->. unfold read.
  pose proof (len_nonneg v). rewrite len_app. pose proof (len_nonneg s).
  destruct (Z.ltb_spec (len v + len s) (len v)), (Z.ltb_spec (len v) 0); simpl; try lia.
  unfold len. rewrite Nat2Z.id.
  rewrite firstn_app, skipn_app, Nat.sub_diag, firstn_all, skipn_all. simpl.
  now rewrite app_nil_r.
Qed.

Lemma read_short (n : Z) (s : String) : len s < n -> read n s = None.
Proof.
  intros H. unfold read. destruct (Z.ltb_spec (len s) n); [reflexivity | lia].
Qed.

Lemma ReadUint8_cons (b : byte) (s : String) :
  ReadUint8 (b :: s) = Some (byte.unsigned b, s).
Proof.
  unfold ReadUint8. change (b :: s) with ([b] ++ s).
  now rewrite (read_app [b] s 1).
Qed.

Lemma ReadUint16_cons (hi lo : byte) (s : String) :
  ReadUint16 (hi :: lo :: s) = Some (be16 hi lo, s).
Proof.
  unfold ReadUint16. change (hi :: lo :: s) with ([hi; lo] ++ s).
  now rewrite (read_app [hi; lo] s 2).
Qed.

Lemma ReadUint16_short (s : String) : len s < 2 -> ReadUint16 s = None.
Proof. intros H. unfold ReadUint16. now rewrite read_short. Qed.

Lemma ReadUint16_Some (s : String) (v : Z) (s' : String) :
  ReadUint16 s = Some (v, s') ->
  exists hi lo, s = hi :: lo :: s' /\ v = be16 hi lo.
Proof.
  unfold ReadUint16. destruct (read 2 s) as [[bs t] | ] eqn:E; [ | discriminate].
  intros [= <- <-]. apply read_Some in E as (_ & _ & -> & Hl).
  destruct bs as [ | hi [ | lo [ | ? ?]]]; cbn in Hl; try lia.
  now exists hi, lo.
Qed.

Lemma ReadUint8_Some (s : String) (v : Z) (s' : String) :
  ReadUint8 s = Some (v, s') -> exists b, s = b :: s' /\ v = byte.unsigned b.
Proof.
  unfold ReadUint8. destruct (read 1 s) as [[bs t] | ] eqn:E; [ | discriminate].
  intros [= <- <-]. apply read_Some in E as (_ & _ & -> & Hl).
  destruct bs as [ | b [ | ? ?]]; cbn in Hl; try lia.
  now exists b.
Qed.

Lemma prefixLength_1 (b : byte) : prefixLength [b] = byte.unsigned b.
Proof. reflexivity. Qed.

Lemma prefixLength_2 (hi lo : byte) : prefixLength [hi; lo] = be16 hi lo.
Proof.
  unfold prefixLength, be16. cbn [fold_left].
  rewrite Z.shiftl_0_l, Z.mod_0_l, Z.lor_0_l by lia.
  rewrite (Z.mod_small (Z.shiftl _ 8)); [reflexivity | ].
  pose proof (unsigned_range hi). rewrite Z.shiftl_mul_pow2 by lia. lia.
Qed.

Lemma readLengthPrefixed_Some (lenLen : Z) (s v s' : String) :
  readLengthPrefixed lenLen s = Some (v, s') ->
  exists lenBytes, s = lenBytes ++ v ++ s' /\ len lenBytes = lenLen
                   /\ len v = prefixLength lenBytes.
Proof.
  unfold readLengthPrefixed.
  destruct (read lenLen s) as [[lb s1] | ] eqn:E1; [ | discriminate].
  destruct (read (prefixLength lb) s1) as [[v' s2] | ] eqn:E2; [ | discriminate].
  intros [= <- <-].
  apply read_Some in E1 as (_ & _ & -> & Hl1).
  apply read_Some in E2 as (_ & _ & -> & Hl2).
  now exists lb.
Qed.

Lemma ReadUint16LengthPrefixed_app (v : list byte) (s : String) :
  len v < 65536 ->
  ReadUint16LengthPrefixed (bigEndian16 (len v) ++ v ++ s) = Some (v, s).
Proof.
  intros Hv. unfold ReadUint16LengthPrefixed, readLengthPrefixed.
  rewrite (read_app (bigEndian16 (len v))) by reflexivity.
  unfold bigEndian16. rewrite prefixLength_2.
  rewrite be16_of_Z by (pose proof (len_nonneg v); lia).
  now rewrite read_app.
Qed.

Lemma ReadUint8LengthPrefixed_app (v : list byte) (s : String) :
  len v < 256 ->
  ReadUint8LengthPrefixed (byte.of_Z (len v) :: v ++ s) = Some (v, s).
Proof.
  intros Hv. unfold ReadUint8LengthPrefixed, readLengthPrefixed.
  change (byte.of_Z (len v) :: v ++ s) with ([byte.of_Z (len v)] ++ v ++ s).
  rewrite (read_app [byte.of_Z (len v)] (v ++ s) 1) by reflexivity.
  rewrite prefixLength_1.
  rewrite unsigned_of_Z_small by (pose proof (len_nonneg v); lia).
  now rewrite read_app.
Qed.

(** ** The loops of the ECHConfigList decoder end *)

(** One step of case analysis on the read the goal is stuck on: a successful
    read is replaced by the shape of the string it was made on. *)
Ltac read_step :=
  match goal with
  | |- context [match ReadUint16 ?s with _ => _ end] =>
      let E := fresh "E" in
      destruct (ReadUint16 s) as [[? ?] | ] eqn:E;
      [apply ReadUint16_Some in E as (? & ? & ? & ?); subst | ]
  | |- context [match ReadUint8 ?s with _ => _ end] =>
      let E := fresh "E" in
      destruct (ReadUint8 s) as [[? ?] | ] eqn:E;
      [apply ReadUint8_Some in E as (? & ? & ?); subst | ]
  | |- context [match ReadUint16LengthPrefixed ?s with _ => _ end] =>
      let E := fresh "E" in
      destruct (ReadUint16LengthPrefixed s) as [[? ?] | ] eqn:E;
      [apply readLengthPrefixed_Some in E as (? & ? & ? & ?); subst | ]
  | |- context [match ReadUint8LengthPrefixed ?s with _ => _ end] =>
      let E := fresh "E" in
      destruct (ReadUint8LengthPrefixed s) as [[? ?] | ] eqn:E;
      [apply readLengthPrefixed_Some in E as (? & ? & ? & ?); subst | ]
  end.

Ltac list_len := repeat (rewrite ?length_app in *; cbn [length] in * ); lia.

Lemma readCipherSuites_fuel (fuel : nat) :
  forall cs acc, (length cs <= fuel)%nat -> readCipherSuites fuel cs acc <> OutOfFuel.
Proof.
  induction fuel as [ | fuel IH]; intros cs acc Hf; cbn [readCipherSuites].
  - destruct cs; [cbn; discriminate | cbn in Hf; lia].
  - destruct (Empty cs); [discriminate | ].
    repeat (read_step; [ | discriminate]).
    apply IH. list_len.
Qed.

Lemma readExtensions_fuel (fuel : nat) :
  forall es acc, (length es <= fuel)%nat -> readExtensions fuel es acc <> OutOfFuel.
Proof.
  induction fuel as [ | fuel IH]; intros es acc Hf; cbn [readExtensions].
  - destruct es; [cbn; discriminate | cbn in Hf; lia].
  - destruct (Empty es); [discriminate | ].
    repeat (read_step; [ | discriminate]).
    apply IH. list_len.
Qed.

Lemma readFields_fuel (raw0 : list byte) (version length : Z) (s : String) :
  readFields raw0 version length s <> OutOfFuel.
Proof.
  unfold readFields.
  repeat (read_step; [ | discriminate]).
  match goal with
  | |- context [readCipherSuites (List.length ?c) ?c []] =>
      pose proof (readCipherSuites_fuel (List.length c) c [] (le_n _)) as Hc
  end.
  destruct (readCipherSuites _ _ _); [ | discriminate | congruence].
  repeat (read_step; [ | discriminate]).
  match goal with
  | |- context [readExtensions (List.length ?c) ?c []] =>
      pose proof (readExtensions_fuel (List.length c) c [] (le_n _)) as He
  end.
  destruct (readExtensions _ _ _); [discriminate | discriminate | congruence].
Qed.

Lemma readFields_shorter (raw0 : list byte) (version length : Z) (s s' : String)
    (ec : echConfig) :
  readFields raw0 version length s = Ok (ec, s') ->
  (List.length s' < List.length s)%nat.
Proof.
  unfold readFields.
  repeat (read_step; [ | discriminate]).
  destruct (readCipherSuites _ _ _); [ | discriminate | discriminate].
  repeat (read_step; [ | discriminate]).
  destruct (readExtensions _ _ _); [ | discriminate | discriminate].
  intros [= <- <-]. list_len.
Qed.

Lemma parseEntries_fuel (fuel : nat) :
  forall s configs, (length s <= fuel)%nat -> parseEntries fuel s configs <> OutOfFuel.
Proof.
  induction fuel as [ | fuel IH]; intros s configs Hf; cbn [parseEntries].
  - destruct s; [cbn; discriminate | cbn in Hf; lia].
  - destruct (negb (0 <? len s)); [discriminate | ].
    repeat (read_step; [ | discriminate]).
    destruct (_ <? _); [discriminate | ].
    destruct (negb _).
    + apply IH. unfold Skip.
      destruct (read _ _) as [[v s'] | ] eqn:E.
      * apply read_Some in E as (_ & _ & -> & _). list_len.
      * list_len.
    + match goal with
      | |- context [readFields ?r ?v ?l ?t] =>
          pose proof (readFields_fuel r v l t) as Hr
      end.
      destruct (readFields _ _ _ _) as [[ec s'] | | ] eqn:E;
        [ | discriminate | congruence].
      apply IH. apply readFields_shorter in E. list_len.
Qed.

(** The ECHConfigList decoder returns on every input: its loops are never
    cut short by the step count. *)
Theorem parseECHConfigList_terminates (data : list byte) :
  parseECHConfigList data <> OutOfFuel.
Proof.
  unfold parseECHConfigList.
  read_step; [ | discriminate].
  destruct (negb _); [discriminate | ].
  now apply parseEntries_fuel.
Qed.

(** ** Decoding a well-formed ECHConfigList *)

Lemma ReadUint16_bigEndian16 (v : Z) (s : String) :
  0 <= v < 65536 -> ReadUint16 (bigEndian16 v ++ s) = Some (v, s).
Proof.
  intros Hv. unfold bigEndian16. cbn [app].
  now rewrite ReadUint16_cons, be16_of_Z.
Qed.

Lemma ReadUint8_of_Z (v : Z) (s : String) :
  0 <= v < 256 -> ReadUint8 (byte.of_Z v :: s) = Some (v, s).
Proof. intros Hv. now rewrite ReadUint8_cons, unsigned_of_Z_small. Qed.

Lemma Empty_false (s : String) : 0 < len s -> Empty s = false.
Proof. intros H. unfold Empty. apply Z.eqb_neq. lia. Qed.

Lemma readCipherSuites_encoded (suites : list echCipher) :
  forall fuel acc,
    Forall wfSuite suites -> (length suites <= fuel)%nat ->
    readCipherSuites fuel (encodeSuites suites) acc = Ok (acc ++ suites).
Proof.
  induction suites as [ | c suites IH]; intros fuel acc Hwf Hf.
  - destruct fuel; cbn; now rewrite app_nil_r.
  - destruct fuel as [ | fuel]; [cbn in Hf; lia | ].
    inversion Hwf as [ | ? ? [Hk Ha] Hwf']; subst.
    cbn [readCipherSuites encodeSuites flat_map].
    rewrite Empty_false
      by (rewrite len_app; change (len (encodeSuite c)) with 4;
          pose proof (len_nonneg (flat_map encodeSuite suites)); lia).
    unfold encodeSuite. rewrite <- !app_assoc.
    rewrite ReadUint16_bigEndian16 by assumption.
    rewrite ReadUint16_bigEndian16 by assumption.
    fold (encodeSuites suites). rewrite IH by (assumption || (cbn in Hf; lia)).
    rewrite <- app_assoc. now destruct c.
Qed.

Lemma len_encodeExtension (e : echExtension) :
  len (encodeExtension e) = 4 + len (Data e).
Proof. unfold encodeExtension. rewrite !len_app, !len_bigEndian16. lia. Qed.

Lemma readExtensions_encoded (exts : list echExtension) :
  forall fuel acc,
    Forall wfExtension exts -> (length exts <= fuel)%nat ->
    readExtensions fuel (encodeExtensions exts) acc = Ok (acc ++ exts).
Proof.
  induction exts as [ | e exts IH]; intros fuel acc Hwf Hf.
  - destruct fuel; cbn; now rewrite app_nil_r.
  - destruct fuel as [ | fuel]; [cbn in Hf; lia | ].
    inversion Hwf as [ | ? ? [Ht Hd] Hwf']; subst.
    cbn [readExtensions encodeExtensions flat_map].
    rewrite Empty_false
      by (rewrite len_app, len_encodeExtension;
          pose proof (len_nonneg (flat_map encodeExtension exts));
          pose proof (len_nonneg (Data e)); lia).
    unfold encodeExtension. rewrite <- !app_assoc.
    rewrite ReadUint16_bigEndian16 by assumption.
    rewrite ReadUint16LengthPrefixed_app by assumption.
    fold (encodeExtensions exts). rewrite IH by (assumption || (cbn in Hf; lia)).
    rewrite <- app_assoc. now destruct e.
Qed.

Lemma encodeSuites_length (suites : list echCipher) :
  (length suites <= length (encodeSuites suites))%nat.
Proof.
  unfold encodeSuites. induction suites as [ | c suites IH]; [cbn; lia | ].
  cbn [flat_map]. rewrite length_app.
  change (length (encodeSuite c)) with 4%nat. cbn [length]. lia.
Qed.

Lemma encodeExtensions_length (exts : list echExtension) :
  (length exts <= length (encodeExtensions exts))%nat.
Proof.
  unfold encodeExtensions. induction exts as [ | e exts IH]; [cbn; lia | ].
  cbn [flat_map]. unfold encodeExtension at 1. rewrite !length_app.
  cbn [length bigEndian16]. lia.
Qed.

Lemma len_encodeBody (c : echConfig) :
  len (encodeBody c) =
  11 + len (PublicKey c) + len (encodeSuites (SymmetricCipherSuite c))
  + len (PublicName c) + len (encodeExtensions (Extensions c)).
Proof.
  unfold encodeBody.
  repeat (rewrite ?len_cons, ?len_app, ?len_bigEndian16). lia.
Qed.

Lemma len_encodeEntry (version : Z) (contents : list byte) :
  len (encodeEntry version contents) = 4 + len contents.
Proof. unfold encodeEntry. rewrite !len_app, !len_bigEndian16. lia. Qed.

(** Reading the fields of a well-formed entry returns them and stops at the
    end of the entry. *)
Lemma readFields_encoded (c : echConfig) (raw0 : list byte) (version length : Z)
    (rest : String) :
  len (encodeBody c) < 65536 ->
  0 <= ConfigID c < 256 -> 0 <= KemID c < 65536 ->
  Forall wfSuite (SymmetricCipherSuite c) ->
  0 <= MaxNameLength c < 256 -> len (PublicName c) < 256 ->
  Forall wfExtension (Extensions c) ->
  readFields raw0 version length (encodeBody c ++ rest) =
  Ok (mkConfig raw0 version length (ConfigID c) (KemID c) (PublicKey c)
               (SymmetricCipherSuite c) (MaxNameLength c) (PublicName c)
               (Extensions c), rest).
Proof.
  intros Hfit Hid Hkem Hs Hmax Hname He.
  rewrite len_encodeBody in Hfit.
  pose proof (len_nonneg (PublicKey c)).
  pose proof (len_nonneg (encodeSuites (SymmetricCipherSuite c))).
  pose proof (len_nonneg (PublicName c)).
  pose proof (len_nonneg (encodeExtensions (Extensions c))).
  unfold readFields, encodeBody.
  repeat rewrite <- ?app_comm_cons, <- ?app_assoc.
  rewrite ReadUint8_of_Z by assumption.
  rewrite ReadUint16_bigEndian16 by assumption.
  rewrite ReadUint16LengthPrefixed_app by lia.
  rewrite ReadUint16LengthPrefixed_app by lia.
  rewrite readCipherSuites_encoded by (assumption || apply encodeSuites_length).
  rewrite ReadUint8_of_Z by assumption.
  rewrite ReadUint8LengthPrefixed_app by assumption.
  rewrite ReadUint16LengthPrefixed_app by lia.
  rewrite readExtensions_encoded by (assumption || apply encodeExtensions_length).
  reflexivity.
Qed.

Lemma parseEntries_nil (fuel : nat) (configs : list echConfig) :
  parseEntries fuel [] configs = Ok configs.
Proof. destruct fuel; reflexivity. Qed.

(** An entry of another version is stepped over whole. *)
Lemma parseEntries_Unknown (fuel : nat) (version : Z) (contents : list byte)
    (rest : String) (configs : list echConfig) :
  0 <= version < 65536 -> version <> extensionEncryptedClientHello ->
  len contents < 65536 ->
  parseEntries (S fuel) (encodeEntry version contents ++ rest) configs =
  parseEntries fuel rest configs.
Proof.
  intros Hv Hne Hc. pose proof (len_nonneg contents). pose proof (len_nonneg rest).
  cbn [parseEntries].
  assert (Hl : len (encodeEntry version contents ++ rest) = 4 + len contents + len rest)
    by (rewrite len_app, len_encodeEntry; lia).
  rewrite Hl.
  destruct (Z.ltb_spec 0 (4 + len contents + len rest)); [ | lia]. cbn [negb].
  unfold encodeEntry. rewrite <- !app_assoc.
  rewrite ReadUint16_bigEndian16 by assumption.
  rewrite ReadUint16_bigEndian16 by lia.
  destruct (Z.ltb_spec (4 + len contents + len rest) (len contents + 4)); [lia | ].
  destruct (Z.eqb_spec version extensionEncryptedClientHello); [contradiction | ].
  cbn [negb]. unfold Skip. now rewrite read_app.
Qed.

(** An entry of the recognized version is decoded and appended. *)
Lemma parseEntries_Known (fuel : nat) (c : echConfig) (rest : String)
    (configs : list echConfig) :
  wfConfig c ->
  parseEntries (S fuel) (encodeConfig c ++ rest) configs =
  parseEntries fuel rest (configs ++ [c]).
Proof.
  intros [Hraw Hver Hlen Hfit Hid Hkem Hs Hmax Hname He].
  pose proof (len_nonneg (encodeBody c)). pose proof (len_nonneg rest).
  cbn [parseEntries].
  assert (Hl : len (encodeConfig c ++ rest) = 4 + len (encodeBody c) + len rest)
    by (unfold encodeConfig; rewrite len_app, len_encodeEntry; lia).
  rewrite Hl.
  destruct (Z.ltb_spec 0 (4 + len (encodeBody c) + len rest)); [ | lia]. cbn [negb].
  assert (Hfirst : firstn (Z.to_nat (uint16 (len (encodeBody c) + 4)))
                          (encodeConfig c ++ rest) = encodeConfig c).
  { unfold uint16. rewrite Z.mod_small by lia.
    replace (Z.to_nat (len (encodeBody c) + 4)) with (length (encodeConfig c) + 0)%nat.
    - rewrite firstn_app_2, firstn_O. apply app_nil_r.
    - unfold encodeConfig. pose proof (len_encodeEntry (Version c) (encodeBody c)).
      unfold len in *. lia. }
  unfold encodeConfig, encodeEntry in *. rewrite <- !app_assoc in *.
  rewrite Hver in *.
  rewrite ReadUint16_bigEndian16 by (unfold extensionEncryptedClientHello; lia).
  rewrite ReadUint16_bigEndian16 by lia.
  destruct (Z.ltb_spec (4 + len (encodeBody c) + len rest) (len (encodeBody c) + 4));
    [lia | ].
  rewrite Z.eqb_refl. cbn [negb].
  rewrite Hfirst.
  rewrite readFields_encoded by (assumption || lia).
  f_equal. f_equal. f_equal.
  rewrite <- Hraw, <- Hlen, <- Hver. now destruct c.
Qed.

Lemma encodeEntries_length (es : list entry) :
  (length es <= length (encodeEntries es))%nat.
Proof.
  unfold encodeEntries. induction es as [ | e es IH]; [cbn; lia | ].
  cbn [flat_map]. rewrite length_app.
  assert (1 <= length (encodeListEntry e))%nat; [ | cbn [length]; lia].
  destruct e; cbn [encodeListEntry]; unfold encodeConfig, encodeEntry;
    rewrite !length_app; cbn [length bigEndian16]; lia.
Qed.

(** The entry loop on a run of well-formed entries: it comes out at the end
    of the run with the recognized ones appended, in order. *)
Lemma parseEntries_encoded (es : list entry) :
  forall fuel rest configs,
    Forall wfEntry es ->
    parseEntries (length es + fuel) (encodeEntries es ++ rest) configs =
    parseEntries fuel rest (configs ++ recognized es).
Proof.
  induction es as [ | e es IH]; intros fuel rest configs Hwf.
  - cbn. now rewrite app_nil_r.
  - inversion Hwf as [ | ? ? He Hwf']; subst.
    cbn [encodeEntries flat_map recognized length Nat.add].
    fold (encodeEntries es). fold (recognized es). rewrite <- app_assoc.
    destruct e as [version contents | c]; cbn [encodeListEntry].
    + destruct He as (Hv & Hne & Hc).
      rewrite parseEntries_Unknown by assumption.
      now rewrite IH.
    + rewrite parseEntries_Known by assumption.
      rewrite IH by assumption. now rewrite <- app_assoc.
Qed.

(** Decoding a well-formed list returns its recognized entries. *)
Lemma parseECHConfigList_encodeList (es : list entry) :
  Forall wfEntry es -> len (encodeEntries es) < 65536 ->
  parseECHConfigList (encodeList es) = Ok (recognized es).
Proof.
  intros Hwf Hfit. pose proof (len_nonneg (encodeEntries es)).
  unfold parseECHConfigList, encodeList.
  rewrite ReadUint16_bigEndian16 by lia.
  rewrite len_app, len_bigEndian16.
  unfold uint16. replace (2 + len (encodeEntries es) - 2) with (len (encodeEntries es)) by lia.
  rewrite Z.mod_small by lia. rewrite Z.eqb_refl. cbn [negb].
  pose proof (encodeEntries_length es).
  replace (length (encodeEntries es))
    with (length es + (length (encodeEntries es) - length es))%nat by lia.
  rewrite <- (app_nil_r (encodeEntries es)) at 2.
  rewrite parseEntries_encoded by assumption.
  now rewrite parseEntries_nil.
Qed.

(** ** The cipher-suite sub-region *)

Lemma bigEndian16_be16 (hi lo : byte) : bigEndian16 (be16 hi lo) = [hi; lo].
Proof.
  unfold bigEndian16. rewrite be16_eq.
  pose proof (unsigned_range hi). pose proof (unsigned_range lo).
  replace ((byte.unsigned hi * 256 + byte.unsigned lo) / 256) with (byte.unsigned hi)
    by (apply Z.div_unique with (byte.unsigned lo); lia).
  replace ((byte.unsigned hi * 256 + byte.unsigned lo) mod 256) with (byte.unsigned lo)
    by (apply Z.mod_unique with (byte.unsigned hi); lia).
  now rewrite !byte.of_Z_unsigned.
Qed.



(** Every pair the loop returns has both numbers within 16 bits. *)
Lemma readCipherSuites_wf (fuel : nat) :
  forall cs acc suites,
    Forall wfSuite acc -> readCipherSuites fuel cs acc = Ok suites ->
    Forall wfSuite suites.
Proof.
  induction fuel as [ | fuel IH]; intros cs acc suites Hacc; cbn [readCipherSuites];
    destruct (Empty cs); try discriminate; try (now intros [= <-]).
  repeat (read_step; [ | discriminate]).
  apply IH. apply Forall_app. split; [assumption | ].
  constructor; [ | constructor]. split; apply be16_range.
Qed.

(** ** The ECHConfigList decoder on lists, well-formed and not *)

(** C9: a well-formed list without an entry of the recognized version --
    the list of no entries, [00 00], among them, and every list of entries
    of other versions only -- decodes to the empty list, without error. *)
Theorem C9_no_recognized_entry_is_empty_result (es : list entry) :
  Forall wfEntry es -> recognized es = [] -> len (encodeEntries es) < 65536 ->
  parseECHConfigList (encodeList es) = Ok []
  /\ parseECHConfigList [Byte.x00; Byte.x00] = Ok [].
Proof.
  intros Hwf Hnone Hfit. split; [ | reflexivity].
  rewrite parseECHConfigList_encodeList by assumption.
  now rewrite Hnone.
Qed.

Lemma C9_witness :
  parseECHConfigList
    (encodeList [Unknown 0xfe0a [Byte.x01; Byte.x02; Byte.x03]; Unknown 0xff00 []])
  = Ok []
  /\ parseECHConfigList [Byte.x00; Byte.x00] = Ok [].
Proof.
  apply (C9_no_recognized_entry_is_empty_result
           [Unknown 0xfe0a [Byte.x01; Byte.x02; Byte.x03]; Unknown 0xff00 []]).
  - repeat constructor; cbn; try lia; discriminate.
  - reflexivity.
  - vm_compute. reflexivity.
Defined.

(** C4: a well-formed list of one entry of another version followed by one
    entry of the recognized version decodes, without error, to the list of
    exactly the recognized entry; the result does not depend on the version
    or the contents of the entry stepped over. *)
Theorem C4_unknown_entry_is_skipped (version : Z) (contents : list byte)
    (c : echConfig) :
  0 <= version < 65536 -> version <> extensionEncryptedClientHello ->
  len contents < 65536 -> wfConfig c ->
  len (encodeEntries [Unknown version contents; Known c]) < 65536 ->
  parseECHConfigList (encodeList [Unknown version contents; Known c]) = Ok [c].
Proof.
  intros Hv Hne Hc Hwf Hfit.
  assert (Hes : Forall wfEntry [Unknown version contents; Known c]).
  { constructor; [cbn; auto | constructor; [exact Hwf | constructor]]. }
  now rewrite parseECHConfigList_encodeList.
Qed.

Lemma sampleConfig_wf : wfConfig sampleConfig.
Proof.
  constructor; try reflexivity; try (cbn; lia);
    repeat constructor; cbn; lia.
Defined.

Lemma C4_witness :
  parseECHConfigList
    (encodeList [Unknown 0xfe0a [Byte.x01; Byte.x02; Byte.x03]; Known sampleConfig])
  = Ok [sampleConfig].
Proof.
  apply (C4_unknown_entry_is_skipped 0xfe0a [Byte.x01; Byte.x02; Byte.x03] sampleConfig).
  - lia.
  - discriminate.
  - reflexivity.
  - exact sampleConfig_wf.
  - reflexivity.
Defined.



(** Input shorter than the length prefix itself is rejected. *)
Lemma parseECHConfigList_short (data : list byte) :
  len data < 2 -> parseECHConfigList data = Err errMalformedECHConfig.
Proof. intros H. unfold parseECHConfigList. now rewrite ReadUint16_short. Qed.

(** Below 65538 bytes of input, a length prefix that is not the number of
    bytes after it -- too large or too small -- is rejected. *)
Lemma parseECHConfigList_prefix_mismatch (hi lo : byte) (s : list byte) :
  len (hi :: lo :: s) < 65538 -> be16 hi lo <> len s ->
  parseECHConfigList (hi :: lo :: s) = Err errMalformedECHConfig.
Proof.
  intros Hsmall Hne. unfold parseECHConfigList. rewrite ReadUint16_cons.
  rewrite !len_cons in *. pose proof (len_nonneg s).
  unfold uint16. replace (1 + (1 + len s) - 2) with (len s) by lia.
  rewrite Z.mod_small by lia.
  destruct (Z.eqb_spec (be16 hi lo) (len s)); [contradiction | reflexivity].
Qed.

(** C3, at an input of 65538 bytes: the length prefix says 0, 65536 bytes
    follow it, and the decoder, which compares the prefix with the count of
    remaining bytes cut to 16 bits, accepts the input and returns the empty
    list. *)
Theorem C3_length_prefix_compared_in_16_bits :
  be16 (at_ oversizedList 0) (at_ oversizedList 1) = 0
  /\ len oversizedList - 2 = 65536
  /\ parseECHConfigList oversizedList = Ok [].
Proof. vm_compute. repeat split; reflexivity. Qed.

(** C1, at a list whose first entry declares 8 bytes of contents, which
    end with [maxNameLength]: the decoder goes on reading that entry's public
    name and extensions from the bytes of the entry that follows, and returns
    a config instead of the malformed-list error. *)
Theorem C1_fields_read_past_the_entry :
  parseECHConfigList overrunList =
  Ok [mkConfig [Byte.xfe; Byte.x0d; Byte.x00; Byte.x08; Byte.x01; Byte.x00;
                Byte.x20; Byte.x00; Byte.x00; Byte.x00; Byte.x00; Byte.x00]
               extensionEncryptedClientHello 8 1 0x20 [] [] 0
               (firstn 7 (skipn 1
                  (encodeEntry 0x0700
                     [Byte.xaa; Byte.xbb; Byte.xcc; Byte.xdd; Byte.x00; Byte.x00])))
               []].
Proof. vm_compute. reflexivity. Qed.

(** ** The outer-extension encoder *)

Lemma add_ok (bytes r : list byte) (o p : Z) :
  add bytes (mkBuilder None r o p) = mkBuilder None (r ++ bytes) o p.
Proof. reflexivity. Qed.

Lemma store_app (r : list byte) (k : nat) (mid : list byte) (old new : byte)
    (tail : list byte) :
  length mid = k ->
  store (r ++ mid ++ old :: tail) (len r + Z.of_nat k) new = r ++ mid ++ new :: tail.
Proof.
  intros Hk. unfold store, len.
  replace (Z.to_nat (Z.of_nat (length r) + Z.of_nat k)) with (length r + k)%nat by lia.
  rewrite firstn_app_2.
  replace (S (length r + k)) with (length r + S k)%nat by lia.
  rewrite skipn_app, skipn_all2 by lia.
  replace (length r + S k - length r)%nat with (S k) by lia.
  rewrite <- Hk.
  replace (length mid) with (length mid + 0)%nat at 1 by lia.
  rewrite firstn_app_2, firstn_O.
  replace (S (length mid)) with (length mid + 1)%nat by lia.
  rewrite skipn_app, skipn_all2 by lia.
  replace (length mid + 1 - length mid)%nat with 1%nat by lia.
  cbn [skipn app]. now rewrite app_nil_r, <- app_assoc.
Qed.

(** The two placeholder bytes receive the length, most significant byte
    first; what does not fit is left in the second component. *)
Lemma writeLength_2 (r : list byte) (a b : byte) (tail : list byte) (l : Z) :
  writeLength 2 (r ++ a :: b :: tail) (len r) l =
  (r ++ uint8 (Z.shiftr l 8) :: uint8 l :: tail, Z.shiftr (Z.shiftr l 8) 8).
Proof.
  cbn [writeLength].
  pose proof (store_app r 1 [a] b (uint8 l) tail eq_refl) as H1.
  pose proof (store_app r 0 [] a (uint8 (Z.shiftr l 8)) (uint8 l :: tail) eq_refl) as H0.
  cbn [app] in H1, H0. now rewrite H1, H0.
Qed.

Lemma shiftr_16 (l : Z) : Z.shiftr (Z.shiftr l 8) 8 = l / 65536.
Proof.
  rewrite !Z.shiftr_div_pow2 by lia. rewrite Z.div_div by lia. reflexivity.
Qed.

(** A 2-byte-length-prefixed field on a builder without error: the field
    with its length before it when the length fits 16 bits, the builder's
    error otherwise. *)
Lemma AddUint16LengthPrefixed_AddBytes (r v : list byte) :
  AddUint16LengthPrefixed (fun b => AddBytes v b) (mkBuilder None r 0 0) =
  if len v <? 65536
  then mkBuilder None (r ++ bigEndian16 (len v) ++ v) 0 0
  else mkBuilder (Some (errPendingChildLength (len v) 2)) (r ++ [Byte.x00; Byte.x00]) 0 0.
Proof.
  unfold AddUint16LengthPrefixed, addLengthPrefixed, AddBytes.
  cbn [err result offset pendingLenLen]. rewrite add_ok.
  cbn [result]. change (repeat Byte.x00 (Z.to_nat 2)) with [Byte.x00; Byte.x00].
  rewrite add_ok. unfold flushChild. cbn [err result offset pendingLenLen].
  rewrite <- app_assoc. cbn [app].
  change (Z.to_nat 2) with 2%nat.
  rewrite writeLength_2, shiftr_16.
  replace (len (r ++ Byte.x00 :: Byte.x00 :: v) - 2 - len r) with (len v)
    by (rewrite len_app, !len_cons; lia).
  pose proof (len_nonneg v) as Hv.
  destruct (Z.ltb_spec (len v) 65536) as [Hlt | Hge].
  - rewrite Z.div_small by lia. cbn [Z.eqb negb].
    unfold bigEndian16. rewrite uint8_shiftr8, (uint8_low (len v)). reflexivity.
  - destruct (Z.eqb_spec (len v / 65536) 0) as [E | _]; [ | reflexivity].
    apply Z.div_small_iff in E; lia.
Qed.

(** What the encoder returns, in each of its three cases. *)
Lemma generateOuterECHExt_eq (id kdfID aeadID : Z) (encodedKey payload : list byte) :
  generateOuterECHExt id kdfID aeadID encodedKey payload =
  if len encodedKey <? 65536 then
    if len payload <? 65536 then
      Ok ([Byte.x00] ++ bigEndian16 kdfID ++ bigEndian16 aeadID ++ [byte.of_Z id]
          ++ bigEndian16 (len encodedKey) ++ encodedKey
          ++ bigEndian16 (len payload) ++ payload)
    else Err (errPendingChildLength (len payload) 2)
  else Err (errPendingChildLength (len encodedKey) 2).
Proof.
  unfold generateOuterECHExt, zeroBuilder, AddUint8, AddUint16.
  rewrite !add_ok. rewrite AddUint16LengthPrefixed_AddBytes.
  destruct (len encodedKey <? 65536); [ | reflexivity].
  rewrite AddUint16LengthPrefixed_AddBytes.
  destruct (len payload <? 65536); [ | reflexivity].
  unfold Bytes. cbn [err result offset]. change (Z.to_nat 0) with 0%nat.
  cbn [skipn]. rewrite <- !app_assoc. cbn [app].
  unfold bigEndian16.
  rewrite !uint8_shiftr8, (uint8_low kdfID), (uint8_low aeadID).
  reflexivity.
Qed.

(** C5: with both fields of at most 65535 bytes the encoder succeeds, and
    its output is the byte 0, [kdfId] and [aeadId] in big-endian 16 bits,
    [configId] in one byte, and the two fields each behind its 2-byte
    big-endian length; for fields of 3 and 5 bytes that is 18 bytes, the
    first of them 0. *)
Theorem C5_outer_extension_layout (id kdfID aeadID : Z) (encodedKey payload : list byte) :
  len encodedKey <= 65535 -> len payload <= 65535 ->
  generateOuterECHExt id kdfID aeadID encodedKey payload =
  Ok ([Byte.x00] ++ bigEndian16 kdfID ++ bigEndian16 aeadID ++ [byte.of_Z id]
      ++ bigEndian16 (len encodedKey) ++ encodedKey
      ++ bigEndian16 (len payload) ++ payload)
  /\ (len encodedKey = 3 -> len payload = 5 ->
      exists out, generateOuterECHExt id kdfID aeadID encodedKey payload = Ok out
                  /\ len out = 18 /\ nth_error out 0 = Some Byte.x00).
Proof.
  intros Hk Hp. rewrite generateOuterECHExt_eq.
  destruct (Z.ltb_spec (len encodedKey) 65536); [ | lia].
  destruct (Z.ltb_spec (len payload) 65536); [ | lia].
  split; [reflexivity | ]. intros Hk3 Hp5.
  eexists. split; [reflexivity | ]. split; [ | reflexivity].
  repeat rewrite ?len_app, ?len_cons, ?len_nil, ?len_bigEndian16. lia.
Qed.

Lemma C5_witness :
  generateOuterECHExt 7 1 2 [Byte.x0a; Byte.x0b; Byte.x0c]
                      [Byte.x01; Byte.x02; Byte.x03; Byte.x04; Byte.x05]
  = Ok [Byte.x00; Byte.x00; Byte.x01; Byte.x00; Byte.x02; Byte.x07;
        Byte.x00; Byte.x03; Byte.x0a; Byte.x0b; Byte.x0c;
        Byte.x00; Byte.x05; Byte.x01; Byte.x02; Byte.x03; Byte.x04; Byte.x05].
Proof.
  refine (proj1 (C5_outer_extension_layout 7 1 2 [Byte.x0a; Byte.x0b; Byte.x0c]
                   [Byte.x01; Byte.x02; Byte.x03; Byte.x04; Byte.x05] _ _)).
  - cbn. lia.
  - cbn. lia.
Defined.

(** C8: a field of more than 65535 bytes makes the encoder return an error
    -- the builder's, for a length that does not fit the 2-byte prefix --
    and no byte sequence. *)
Theorem C8_oversized_field_is_rejected (id kdfID aeadID : Z)
    (encodedKey payload : list byte) :
  65535 < len encodedKey \/ 65535 < len payload ->
  exists n,
    generateOuterECHExt id kdfID aeadID encodedKey payload
    = Err (errPendingChildLength n 2)
    /\ 65535 < n /\ (n = len encodedKey \/ n = len payload).
Proof.
  intros H. rewrite generateOuterECHExt_eq.
  destruct (Z.ltb_spec (len encodedKey) 65536) as [Hk | Hk].
  - destruct (Z.ltb_spec (len payload) 65536) as [Hp | Hp]; [lia | ].
    exists (len payload). repeat split; [lia | now right].
  - exists (len encodedKey). repeat split; [lia | now left].
Qed.

Lemma C8_witness :
  exists n,
    generateOuterECHExt 7 1 2 [Byte.x0a] (repeat Byte.x00 (Z.to_nat 65536))
    = Err (errPendingChildLength n 2)
    /\ 65535 < n
    /\ (n = len [Byte.x0a] \/ n = len (repeat Byte.x00 (Z.to_nat 65536))).
Proof.
  apply (C8_oversized_field_is_rejected 7 1 2 [Byte.x0a]
           (repeat Byte.x00 (Z.to_nat 65536))).
  right. vm_compute. reflexivity.
Defined.

(** ** The HTTPS-record decoder *)

Lemma scanName_fuel (fuel : nat) :
  forall data idx,
    len data - idx <= Z.of_nat fuel -> scanName fuel data idx <> OutOfFuel.
Proof.
  induction fuel as [ | fuel IH]; intros data idx Hf; cbn [scanName].
  - destruct (Z.ltb_spec idx (len data)); [lia | discriminate].
  - destruct (_ && _); [apply IH; lia | discriminate].
Qed.

Lemma scanName_bound (fuel : nat) :
  forall data idx j, scanName fuel data idx = Ok j -> idx <= j.
Proof.
  induction fuel as [ | fuel IH]; intros data idx j; cbn [scanName].
  - destruct (_ && _); [discriminate | intros [= <-]; lia].
  - destruct (_ && _); [intros H; apply IH in H; lia | intros [= <-]; lia].
Qed.

Lemma parseParams_fuel (fuel : nat) :
  forall data idx params,
    len data - idx <= Z.of_nat fuel -> parseParams fuel data idx params <> OutOfFuel.
Proof.
  induction fuel as [ | fuel IH]; intros data idx params Hf; cbn [parseParams].
  - destruct (Z.leb_spec (idx + 4) (len data)); [lia | discriminate].
  - destruct (Z.leb_spec (idx + 4) (len data)); [ | discriminate].
    destruct (_ >? _); [discriminate | ].
    apply IH.
    pose proof (be16_range (at_ data (idx + 2)) (at_ data (idx + 3))). lia.
Qed.

(** The HTTPS-record decoder returns on every input. *)
Theorem parseHttpsRecord_terminates (data : list byte) :
  parseHttpsRecord data <> OutOfFuel.
Proof.
  unfold parseHttpsRecord.
  destruct (_ <? _); [discriminate | ].
  pose proof (scanName_fuel (length data) data 2) as Hs.
  destruct (scanName _ _ _) as [idx | | ] eqn:E;
    [ | discriminate | exfalso; apply Hs; [unfold len; lia | reflexivity]].
  destruct (_ >=? _); [discriminate | ].
  pose proof (parseParams_fuel (length data) data (idx + 1) []) as Hp.
  apply scanName_bound in E.
  destruct (parseParams _ _ _ _); [discriminate | discriminate | ].
  exfalso. apply Hp; [unfold len; lia | reflexivity].
Qed.

(** C2, as the code has it: [00 02 00 00] decodes, without error, to
    priority 2 -- the big-endian value of the bytes [00 02] -- with the empty
    target name and no parameter. *)
Theorem C2_minimal_record_has_priority_2 :
  parseHttpsRecord [Byte.x00; Byte.x02; Byte.x00; Byte.x00]
  = Ok (mkHttpsRecord 2 [] []).
Proof. reflexivity. Qed.

(** The result is not the record of priority 0. *)
Lemma C2_counterexample :
  parseHttpsRecord [Byte.x00; Byte.x02; Byte.x00; Byte.x00]
  <> Ok (mkHttpsRecord 0 [] []).
Proof. discriminate. Qed.

(** *** Decoding the wire form of a record *)

Lemma at_app (pre l : list byte) (i : Z) :
  0 <= i -> at_ (pre ++ l) (len pre + i) = at_ l i.
Proof.
  intros Hi. unfold at_, len.
  replace (Z.to_nat (Z.of_nat (length pre) + i)) with (length pre + Z.to_nat i)%nat by lia.
  apply app_nth2_plus.
Qed.

Lemma at_app_0 (pre l : list byte) : at_ (pre ++ l) (len pre) = at_ l 0.
Proof. rewrite <- (at_app pre l 0) by lia. f_equal. lia. Qed.

Lemma at_header (pre : list byte) (a b c d : byte) (t : list byte) :
  at_ (pre ++ a :: b :: c :: d :: t) (len pre) = a
  /\ at_ (pre ++ a :: b :: c :: d :: t) (len pre + 1) = b
  /\ at_ (pre ++ a :: b :: c :: d :: t) (len pre + 2) = c
  /\ at_ (pre ++ a :: b :: c :: d :: t) (len pre + 3) = d.
Proof. rewrite at_app_0, !at_app by lia. now repeat split. Qed.

Lemma slice_app (pre mid rest : list byte) :
  slice (pre ++ mid ++ rest) (len pre) (len pre + len mid) = mid.
Proof.
  unfold slice, len.
  rewrite Nat2Z.id.
  replace (Z.to_nat (Z.of_nat (length pre) + Z.of_nat (length mid) - Z.of_nat (length pre)))
    with (length mid + 0)%nat by lia.
  rewrite skipn_app, skipn_all, Nat.sub_diag. cbn [skipn app].
  rewrite firstn_app_2, firstn_O. apply app_nil_r.
Qed.

Lemma unsigned_eq_0 (b : byte) : byte.unsigned b = 0 <-> b = Byte.x00.
Proof.
  split; [ | now intros ->].
  intros H. apply byte.unsigned_inj. now rewrite H.
Qed.

(** The name scan stops on the first zero byte. *)
Lemma scanName_encoded (name : list byte) :
  forall fuel pre rest,
    Forall (fun b => b <> Byte.x00) name -> (length name <= fuel)%nat ->
    scanName fuel (pre ++ name ++ Byte.x00 :: rest) (len pre) = Ok (len pre + len name).
Proof.
  induction name as [ | b name IH]; intros fuel pre rest Hnz Hf.
  - assert (E : (len pre <? len (pre ++ [] ++ Byte.x00 :: rest))
                && negb (byte.unsigned (at_ (pre ++ [] ++ Byte.x00 :: rest) (len pre)) =? 0)
                = false).
    { rewrite at_app_0. cbn. apply andb_false_r. }
    destruct fuel; cbn [scanName]; rewrite E, len_nil; f_equal; lia.
  - destruct fuel as [ | fuel]; [cbn in Hf; lia | ].
    inversion Hnz as [ | ? ? Hb Hnz']; subst.
    assert (E : (len pre <? len (pre ++ (b :: name) ++ Byte.x00 :: rest))
                && negb (byte.unsigned (at_ (pre ++ (b :: name) ++ Byte.x00 :: rest) (len pre))
                         =? 0) = true).
    { rewrite at_app_0. change (at_ ((b :: name) ++ Byte.x00 :: rest) 0) with b.
      apply andb_true_intro. split.
      - apply Z.ltb_lt. rewrite len_app. cbn [app]. rewrite len_cons.
        pose proof (len_nonneg (name ++ Byte.x00 :: rest)). lia.
      - apply negb_true_iff, Z.eqb_neq. intros E. now apply unsigned_eq_0 in E. }
    cbn [scanName]. rewrite E.
    replace (pre ++ (b :: name) ++ Byte.x00 :: rest)
      with ((pre ++ [b]) ++ name ++ Byte.x00 :: rest) by (now rewrite <- app_assoc).
    replace (len pre + 1) with (len (pre ++ [b])) by (rewrite len_app; reflexivity).
    rewrite IH by (assumption || (cbn in Hf; lia)).
    f_equal. unfold len. rewrite length_app. cbn [length]. lia.
Qed.

Lemma len_encodeParam (p : SvcParam) : len (encodeParam p) = 4 + len (Value p).
Proof. unfold encodeParam. rewrite !len_app, !len_bigEndian16. lia. Qed.

(** The parameter loop reads every encoded parameter and stops when fewer
    than 4 bytes are left, whatever they are. *)
Lemma parseParams_encoded (ps : list SvcParam) :
  forall fuel pre params trailing,
    Forall wfParam ps -> len trailing < 4 -> (length ps <= fuel)%nat ->
    parseParams fuel (pre ++ encodeParams ps ++ trailing) (len pre) params
    = Ok (params ++ ps).
Proof.
  induction ps as [ | p ps IH]; intros fuel pre params trailing Hwf Ht Hf.
  - assert (E : (len pre + 4 <=? len (pre ++ encodeParams [] ++ trailing)) = false).
    { apply Z.leb_gt. rewrite len_app. cbn [encodeParams flat_map app]. lia. }
    destruct fuel; cbn [parseParams]; rewrite E; now rewrite app_nil_r.
  - destruct fuel as [ | fuel]; [cbn in Hf; lia | ].
    inversion Hwf as [ | ? ? [Hk Hv] Hwf']; subst.
    pose proof (len_nonneg (Value p)) as Hv0.
    pose proof (len_nonneg (encodeParams ps ++ trailing)) as Hr0.
    cbn [encodeParams flat_map]. fold (encodeParams ps).
    rewrite <- (app_assoc (encodeParam p)).
    remember (pre ++ encodeParam p ++ encodeParams ps ++ trailing) as data eqn:Hd.
    assert (Hl : len data
                 = len pre + (4 + len (Value p)) + len (encodeParams ps ++ trailing))
      by (rewrite Hd, !len_app, len_encodeParam; lia).
    destruct (at_header pre (byte.of_Z (Key p / 256)) (byte.of_Z (Key p mod 256))
                (byte.of_Z (len (Value p) / 256)) (byte.of_Z (len (Value p) mod 256))
                (Value p ++ encodeParams ps ++ trailing)) as (H0 & H1 & H2 & H3).
    assert (Hd' : data = pre ++ byte.of_Z (Key p / 256) :: byte.of_Z (Key p mod 256)
                    :: byte.of_Z (len (Value p) / 256) :: byte.of_Z (len (Value p) mod 256)
                    :: Value p ++ encodeParams ps ++ trailing).
    { rewrite Hd. unfold encodeParam, bigEndian16. rewrite <- !app_assoc. reflexivity. }
    rewrite <- Hd' in H0, H1, H2, H3.
    assert (Hs : slice data (len pre + 4) (len pre + 4 + len (Value p)) = Value p).
    { rewrite Hd. unfold encodeParam. rewrite <- !app_assoc.
      rewrite (app_assoc pre), (app_assoc (pre ++ _)).
      replace (len pre + 4) with (len ((pre ++ bigEndian16 (Key p))
                                       ++ bigEndian16 (len (Value p))))
        by (rewrite !len_app, !len_bigEndian16; lia).
      apply slice_app. }
    cbn [parseParams].
    rewrite H0, H1, H2, H3, !be16_of_Z, Hs, Hl by lia.
    destruct (Z.leb_spec (len pre + 4) (len pre + (4 + len (Value p))
                                        + len (encodeParams ps ++ trailing))); [ | lia].
    destruct (Z.gtb_spec (len pre + 4 + len (Value p))
                (len pre + (4 + len (Value p)) + len (encodeParams ps ++ trailing))); [lia | ].
    rewrite Hd.
    replace (pre ++ encodeParam p ++ encodeParams ps ++ trailing)
      with ((pre ++ encodeParam p) ++ encodeParams ps ++ trailing)
      by (now rewrite <- app_assoc).
    replace (len pre + 4 + len (Value p)) with (len (pre ++ encodeParam p))
      by (rewrite len_app, len_encodeParam; lia).
    rewrite IH by (assumption || (cbn in Hf; lia)).
    rewrite <- app_assoc. now destruct p.
Qed.

Lemma encodeParams_length (ps : list SvcParam) :
  (length ps <= length (encodeParams ps))%nat.
Proof.
  unfold encodeParams. induction ps as [ | p ps IH]; [cbn; lia | ].
  cbn [flat_map]. unfold encodeParam at 1. rewrite !length_app.
  cbn [length bigEndian16]. lia.
Qed.

(** A record followed by at most 3 bytes decodes to the record. *)
Lemma parseHttpsRecord_encoded (r : HttpsRecord) (trailing : list byte) :
  wfRecord r -> len trailing < 4 ->
  parseHttpsRecord (encodeRecord r ++ trailing) = Ok r.
Proof.
  intros (Hp & Hn & Hps) Ht.
  destruct r as [priority name ps]. cbn [Priority TargetName Params] in *.
  unfold parseHttpsRecord, encodeRecord. cbn [Priority TargetName Params].
  set (data := (bigEndian16 priority ++ name ++ Byte.x00 :: encodeParams ps) ++ trailing).
  assert (Hd : data = bigEndian16 priority ++ name ++ Byte.x00 :: encodeParams ps ++ trailing).
  { unfold data. rewrite <- !app_assoc. now rewrite <- app_comm_cons. }
  assert (Hl : len data = 3 + len name + len (encodeParams ps ++ trailing)).
  { rewrite Hd. repeat rewrite ?len_app, ?len_cons, ?len_bigEndian16. lia. }
  pose proof (len_nonneg name). pose proof (len_nonneg (encodeParams ps ++ trailing)).
  destruct (Z.ltb_spec (len data) 3); [lia | ].
  assert (Hprio : be16 (at_ data 0) (at_ data 1) = priority).
  { rewrite Hd. unfold bigEndian16. cbn [app]. unfold at_. cbn [Z.to_nat Pos.to_nat Pos.iter_op nth].
    now apply be16_of_Z. }
  rewrite Hprio.
  assert (Hscan : scanName (length data) data 2 = Ok (2 + len name)).
  { rewrite Hd at 2. change 2 with (len (bigEndian16 priority)).
    apply scanName_encoded; [assumption | ].
    rewrite Hd. rewrite !length_app. lia. }
  rewrite Hscan.
  destruct (Z.geb_spec (2 + len name) (len data)); [lia | ].
  assert (Hname : slice data 2 (2 + len name) = name).
  { rewrite Hd. change 2 with (len (bigEndian16 priority)). apply slice_app. }
  rewrite Hname.
  assert (Hparams : parseParams (length data) data (2 + len name + 1) [] = Ok ps).
  { assert (Hd' : data = (bigEndian16 priority ++ name ++ [Byte.x00])
                         ++ encodeParams ps ++ trailing).
    { rewrite Hd. rewrite <- !app_assoc. reflexivity. }
    rewrite Hd' at 2.
    replace (2 + len name + 1) with (len (bigEndian16 priority ++ name ++ [Byte.x00]))
      by (rewrite !len_app, len_bigEndian16, len_cons, len_nil; lia).
    rewrite parseParams_encoded; [reflexivity | assumption | assumption | ].
    rewrite Hd'. pose proof (encodeParams_length ps). rewrite !length_app. lia. }
  now rewrite Hparams.
Qed.

(** One to three bytes after a list the ECHConfigList decoder accepts make
    it reject the input: the length prefix no longer matches. *)
Lemma parseECHConfigList_trailing (data trailing : list byte)
    (configs : list echConfig) :
  parseECHConfigList data = Ok configs -> 1 <= len trailing <= 3 ->
  parseECHConfigList (data ++ trailing) = Err errMalformedECHConfig.
Proof.
  unfold parseECHConfigList. intros H Ht.
  destruct (ReadUint16 data) as [[length s] | ] eqn:E; [ | discriminate].
  apply ReadUint16_Some in E as (hi & lo & -> & ->).
  cbn [app]. rewrite ReadUint16_cons.
  destruct (Z.eqb_spec (be16 hi lo) (uint16 (len (hi :: lo :: s) - 2))) as [E | ];
    [clear H | discriminate].
  destruct (Z.eqb_spec (be16 hi lo) (uint16 (len (hi :: lo :: s ++ trailing) - 2)))
    as [E' | ]; [exfalso | reflexivity].
  rewrite E in E'. unfold uint16 in E'.
  rewrite !len_cons, len_app in E'. pose proof (len_nonneg s).
  replace (1 + (1 + len s) - 2) with (len s) in E' by lia.
  replace (1 + (1 + (len s + len trailing)) - 2) with (len s + len trailing) in E' by lia.
  pose proof (Z.div_mod (len s) 65536). pose proof (Z.div_mod (len s + len trailing) 65536).
  pose proof (Z.mod_pos_bound (len s) 65536).
  pose proof (Z.mod_pos_bound (len s + len trailing) 65536).
  nia.
Qed.

(** C10: a record followed by 1 to 3 bytes -- too few for the key and the
    length of another parameter -- decodes without error to the same record
    as without them, so that the bytes are in no parameter; the same bytes
    after a list that the ECHConfigList decoder accepts make that decoder
    reject the input. *)
Theorem C10_trailing_bytes_are_dropped (r : HttpsRecord)
    (trailing echList : list byte) (configs : list echConfig) :
  wfRecord r -> 1 <= len trailing <= 3 ->
  parseECHConfigList echList = Ok configs ->
  parseHttpsRecord (encodeRecord r ++ trailing) = Ok r
  /\ parseHttpsRecord (encodeRecord r) = Ok r
  /\ parseECHConfigList (echList ++ trailing) = Err errMalformedECHConfig.
Proof.
  intros Hwf Ht Hlist. repeat split.
  - apply parseHttpsRecord_encoded; [assumption | lia].
  - rewrite <- (app_nil_r (encodeRecord r)).
    apply parseHttpsRecord_encoded; [assumption | reflexivity].
  - now apply parseECHConfigList_trailing with configs.
Qed.

Lemma C10_witness :
  parseHttpsRecord (encodeRecord sampleRecord ++ [Byte.x00; Byte.x05; Byte.xff])
  = Ok sampleRecord
  /\ parseHttpsRecord (encodeRecord sampleRecord) = Ok sampleRecord
  /\ parseECHConfigList
       (encodeList [Known sampleConfig] ++ [Byte.x00; Byte.x05; Byte.xff])
     = Err errMalformedECHConfig.
Proof.
  apply (C10_trailing_bytes_are_dropped sampleRecord [Byte.x00; Byte.x05; Byte.xff]
           (encodeList [Known sampleConfig]) [sampleConfig]).
  - split; [cbn; lia | split; repeat constructor; cbn; lia].
  - cbn. lia.
  - reflexivity.
Defined.

(** ** The domain-name validator *)

Ltac rune_error := cbn [fst]; unfold RuneError; lia.

Lemma decodeRune_ascii (b : byte) (t : gostring) :
  byte.unsigned b < 0x80 -> decodeRune (b :: t) = (byte.unsigned b, 1%nat).
Proof.
  intros H. cbn [decodeRune].
  destruct (Z.ltb_spec (byte.unsigned b) 128); [reflexivity | lia].
Qed.

(** A byte that is not ASCII starts a code point that is not ASCII. *)
Lemma decodeRune_nonascii (b : byte) (t : gostring) :
  0x80 <= byte.unsigned b -> 0x80 <= fst (decodeRune (b :: t)).
Proof.
  intros H. cbn [decodeRune].
  destruct (Z.ltb_spec (byte.unsigned b) 128); [lia | ].
  pose proof (unsigned_range b) as Hb.
  destruct (Z.leb_spec 194 (byte.unsigned b)), (Z.leb_spec (byte.unsigned b) 223);
    cbn [andb].
  1: { destruct t as [ | b1 t]; [rune_error | ].
       destruct (continuation b1); [ | rune_error].
       cbn [fst]. pose proof (Z.mod_pos_bound (byte.unsigned b1) 64).
       pose proof (Z.div_mod (byte.unsigned b) 32). 
       pose proof (Z.mod_pos_bound (byte.unsigned b) 32). nia. }
  all: destruct (Z.leb_spec 224 (byte.unsigned b)), (Z.leb_spec (byte.unsigned b) 239);
    cbn [andb]; try rune_error.
  all: try (destruct (Z.leb_spec 240 (byte.unsigned b)), (Z.leb_spec (byte.unsigned b) 244);
            cbn [andb]; try rune_error).
  - destruct t as [ | b1 [ | b2 t]]; try rune_error.
    pose proof (unsigned_range b1) as Hb1.
    destruct (Z.eqb_spec (byte.unsigned b) 224) as [E | E];
      destruct (Z.eqb_spec (byte.unsigned b) 237) as [E' | E']; try lia;
      destruct (Z.leb_spec 160 (byte.unsigned b1)), (Z.leb_spec 128 (byte.unsigned b1));
      destruct (Z.leb_spec (byte.unsigned b1) 191), (Z.leb_spec (byte.unsigned b1) 159);
      cbn [andb]; try rune_error; destruct (continuation b2); cbn [fst]; try rune_error.
    all: pose proof (Z.mod_pos_bound (byte.unsigned b2) 64);
      pose proof (Z.mod_pos_bound (byte.unsigned b1) 64);
      pose proof (Z.div_mod (byte.unsigned b1) 64);
      pose proof (Z.div_mod (byte.unsigned b) 16);
      pose proof (Z.mod_pos_bound (byte.unsigned b) 16); nia.
  - destruct t as [ | b1 [ | b2 [ | b3 t]]]; try rune_error.
    pose proof (unsigned_range b1) as Hb1.
    destruct (Z.eqb_spec (byte.unsigned b) 240) as [E | E];
      destruct (Z.eqb_spec (byte.unsigned b) 244) as [E' | E']; try lia;
      destruct (Z.leb_spec 144 (byte.unsigned b1)), (Z.leb_spec 128 (byte.unsigned b1));
      destruct (Z.leb_spec (byte.unsigned b1) 191), (Z.leb_spec (byte.unsigned b1) 143);
      cbn [andb]; try rune_error;
      destruct (continuation b2); cbn [andb]; try rune_error;
      destruct (continuation b3); cbn [fst]; try rune_error.
    all: pose proof (Z.mod_pos_bound (byte.unsigned b3) 64);
      pose proof (Z.mod_pos_bound (byte.unsigned b2) 64);
      pose proof (Z.mod_pos_bound (byte.unsigned b1) 64);
      pose proof (Z.div_mod (byte.unsigned b1) 64);
      pose proof (Z.div_mod (byte.unsigned b) 8);
      pose proof (Z.mod_pos_bound (byte.unsigned b) 8); nia.
Qed.

Lemma unsigned_hyphen (b : byte) : byte.unsigned b = 0x2D <-> b = hyphen.
Proof.
  split; [ | now intros ->].
  intros H. apply byte.unsigned_inj. now rewrite H.
Qed.

Lemma alnumOrHyphen_ascii (b : byte) : alnumOrHyphen b -> byte.unsigned b < 0x80.
Proof. unfold alnumOrHyphen. cbv zeta. lia. Qed.

Lemma rangeLabel_nonascii (b : byte) (t : gostring) (i labelLen : Z) :
  0x80 <= byte.unsigned b -> rangeLabel (b :: t) i 0 labelLen = false.
Proof.
  intros H. cbn [rangeLabel].
  pose proof (decodeRune_nonascii b t H) as Hr.
  destruct (decodeRune (b :: t)) as [r w]. cbn [fst] in Hr.
  destruct (Z.eqb_spec r 45); [lia | ]. cbn [andb].
  destruct (Z.ltb_spec r 48), (Z.gtb_spec r 57), (Z.ltb_spec r 97), (Z.gtb_spec r 122),
    (Z.ltb_spec r 65), (Z.gtb_spec r 90); cbn [andb orb negb]; reflexivity || lia.
Qed.

Lemma rangeLabel_ascii (b : byte) (t : gostring) (i labelLen : Z) :
  byte.unsigned b < 0x80 ->
  rangeLabel (b :: t) i 0 labelLen =
  let r := byte.unsigned b in
  if (r =? 0x2D) && ((i =? 0) || (i =? labelLen - 1)) then false
  else if ((r <? 0x30) || (r >? 0x39)) && ((r <? 0x61) || (r >? 0x7A))
          && ((r <? 0x41) || (r >? 0x5A)) && negb (r =? 0x2D) then false
  else rangeLabel t (i + 1) 0 labelLen.
Proof. intros H. cbn [rangeLabel]. now rewrite decodeRune_ascii. Qed.

(** The range loop from byte [i] of a label to its end. *)
Lemma rangeLabel_spec (rest : gostring) :
  forall i, 0 <= i ->
    rangeLabel rest i 0 (i + len rest) = true <->
    Forall alnumOrHyphen rest
    /\ (i = 0 -> hd Byte.x00 rest <> hyphen)
    /\ last rest Byte.x00 <> hyphen.
Proof.
  induction rest as [ | b t IH]; intros i Hi.
  - cbn. repeat split; (constructor || discriminate).
  - destruct (Z.ltb_spec (byte.unsigned b) 128) as [Hascii | Hnon].
    2: { rewrite rangeLabel_nonascii by assumption.
         split; [discriminate | ].
         intros (Hall & _). inversion Hall as [ | ? ? Hb _]; subst.
         apply alnumOrHyphen_ascii in Hb. lia. }
    rewrite rangeLabel_ascii by assumption. cbv zeta.
    rewrite len_cons. pose proof (len_nonneg t) as Ht.
    replace (i + (1 + len t)) with (i + 1 + len t) by lia.
    specialize (IH (i + 1) ltac:(lia)).
    assert (Hlast : t <> [] -> last (b :: t) Byte.x00 = last t Byte.x00)
      by (destruct t; [congruence | reflexivity]).
    assert (Hlen0 : len t = 0 <-> t = []).
    { destruct t; [easy | ]. rewrite len_cons. pose proof (len_nonneg t).
      split; [lia | discriminate]. }
    cbn [hd].
    destruct (Z.eqb_spec (byte.unsigned b) 45) as [Eh | Eh].
    + apply unsigned_hyphen in Eh as ->.
      destruct (Z.eqb_spec i 0) as [E0 | E0]; cbn [orb andb].
      * split; [discriminate | ]. intros (_ & H & _). now specialize (H E0).
      * destruct (Z.eqb_spec i (i + 1 + len t - 1)) as [E1 | E1]; cbn [orb andb].
        -- split; [discriminate | ]. intros (_ & _ & H).
           assert (t = []) as -> by (apply Hlen0; lia). now cbn in H.
        -- cbn [negb]. rewrite andb_false_r.
           rewrite IH. rewrite Hlast by (intros E; apply Hlen0 in E; lia).
           split.
           ++ intros (Hall & _ & Hl). repeat split; [ | lia | exact Hl].
              constructor; [ | exact Hall]. unfold alnumOrHyphen. cbn. lia.
           ++ intros (Hall & _ & Hl). inversion Hall; subst.
              repeat split; [assumption | lia | exact Hl].
    + cbn [andb].
      assert (Hb : b <> hyphen) by (intros ->; now apply Eh).
      destruct (Z.ltb_spec (byte.unsigned b) 48), (Z.gtb_spec (byte.unsigned b) 57),
        (Z.ltb_spec (byte.unsigned b) 97), (Z.gtb_spec (byte.unsigned b) 122),
        (Z.ltb_spec (byte.unsigned b) 65), (Z.gtb_spec (byte.unsigned b) 90);
        cbn [andb orb negb]; try lia.
      all: try (split; [discriminate | ];
                intros (Hall & _); inversion Hall as [ | ? ? Hab _]; subst;
                unfold alnumOrHyphen in Hab; cbv zeta in Hab; lia).
      all: rewrite IH; split;
        [ intros (Hall & _ & Hl); repeat split;
          [ constructor; [unfold alnumOrHyphen; cbv zeta; lia | exact Hall]
          | intros _; exact Hb
          | destruct t; [exact Hb | exact Hl] ]
        | intros (Hall & _ & Hl); inversion Hall; subst; repeat split;
          [ assumption | lia | destruct t; [cbn; discriminate | exact Hl] ] ].
Qed.

Lemma validLabel_spec (l : gostring) : validLabel l = true <-> labelOk l.
Proof.
  unfold validLabel, labelOk.
  destruct (Z.eqb_spec (len l) 0) as [E | E].
  - destruct l; [ | rewrite len_cons in E; pose proof (len_nonneg l); lia].
    split; [discriminate | ]. now intros (H & _).
  - pose proof (rangeLabel_spec l 0 (Z.le_refl 0)) as H. cbn [Z.add] in H.
    rewrite H. split.
    + intros (Hall & Hh & Hl). repeat split; auto. intros ->. now apply E.
    + intros (_ & Hall & Hh & Hl). repeat split; auto.
Qed.

(** The validator, with the total length counted in bytes as the code
    counts it. *)
Lemma validDNSName_bytes (name : gostring) :
  validDNSName name = true <-> nameOk len name.
Proof.
  unfold validDNSName, nameOk.
  destruct (Z.gtb_spec (len name) 253); [split; [discriminate | lia] | ].
  destruct (Z.leb_spec (len (Split name Byte.x2e)) 1); [split; [discriminate | lia] | ].
  rewrite forallb_forall, Forall_forall.
  split.
  - intros Hv. split; [lia | split; [lia | ]].
    intros l Hl. now apply validLabel_spec, Hv.
  - intros (_ & _ & Hv) l Hl. now apply validLabel_spec, Hv.
Qed.

Lemma runeCountFrom_le (rest : gostring) :
  forall skip, 0 <= runeCountFrom rest skip <= len rest.
Proof.
  induction rest as [ | b t IH]; intros skip; cbn [runeCountFrom].
  - cbn. lia.
  - rewrite len_cons. destruct skip as [ | k].
    + specialize (IH (Nat.pred (snd (decodeRune (b :: t))))). lia.
    + specialize (IH k). lia.
Qed.

Lemma runeCountFrom_ascii (rest : gostring) :
  Forall (fun b => byte.unsigned b < 0x80) rest -> runeCountFrom rest 0 = len rest.
Proof.
  induction 1 as [ | b t Hb Ht IH]; [reflexivity | ].
  cbn [runeCountFrom]. rewrite decodeRune_ascii by assumption.
  cbn [snd Nat.pred]. rewrite IH, len_cons. reflexivity.
Qed.

(** Every byte of a string is the separator or in one of the pieces. *)
Lemma Split_In (sep : byte) (s : gostring) :
  forall b, In b s -> b = sep \/ exists l, In l (Split s sep) /\ In b l.
Proof.
  induction s as [ | c t IH]; intros b Hb; [contradiction | ].
  cbn [Split].
  destruct (Byte.eqb c sep) eqn:E.
  - apply Byte.byte_dec_bl in E. subst c.
    destruct Hb as [<- | Hb]; [now left | ].
    destruct (IH b Hb) as [-> | (l & Hl & Hbl)]; [now left | ].
    right. exists l. split; [now right | assumption].
  - destruct (Split t sep) as [ | l ls] eqn:Es.
    + destruct Hb as [<- | Hb].
      * right. exists [c]. split; now left.
      * destruct (IH b Hb) as [-> | (l & [] & _)]. now left.
    + destruct Hb as [<- | Hb].
      * right. exists (c :: l). split; now left.
      * destruct (IH b Hb) as [-> | (l' & Hl' & Hbl')]; [now left | ].
        right. destruct Hl' as [<- | Hl'].
        -- exists (c :: l). split; [now left | now right].
        -- exists l'. split; [now right | assumption].
Qed.

(** A name whose labels pass has as many characters as bytes. *)
Lemma runeCount_labelsOk (name : gostring) :
  Forall labelOk (Split name Byte.x2e) -> runeCount name = len name.
Proof.
  intros H. apply runeCountFrom_ascii. apply Forall_forall. intros b Hb.
  destruct (Split_In Byte.x2e name b Hb) as [-> | (l & Hl & Hbl)]; [cbn; lia | ].
  rewrite Forall_forall in H. destruct (H l Hl) as (_ & Hall & _).
  rewrite Forall_forall in Hall. now apply alnumOrHyphen_ascii, Hall.
Qed.

(** C6: the validator returns true exactly for the names of at most 253
    characters that split on '.' into at least two labels, each of them not
    empty, of ASCII letters, digits and hyphens only, and neither starting
    nor ending with a hyphen -- whether the 253 are counted in bytes, as the
    code counts, or in characters; it rejects [-bad.example] and [nodot] and
    accepts [good-name.example]. *)
Theorem C6_validDNSName_rules (name : gostring) :
  (validDNSName name = true <-> nameOk len name)
  /\ (validDNSName name = true <-> nameOk runeCount name)
  /\ validDNSName (bytes_of "-bad.example") = false
  /\ validDNSName (bytes_of "good-name.example") = true
  /\ validDNSName (bytes_of "nodot") = false.
Proof.
  split; [apply validDNSName_bytes | ].
  split; [ | repeat split; reflexivity].
  rewrite validDNSName_bytes. unfold nameOk. split.
  - intros (Hl & Hn & Hall). repeat split; try assumption.
    pose proof (runeCountFrom_le name 0). unfold runeCount. lia.
  - intros (Hl & Hn & Hall). repeat split; try assumption.
    now rewrite <- (runeCount_labelsOk name Hall).
Qed.

(** *** Every accepted input is a record followed by at most 3 bytes *)

Lemma skipn_at (data : list byte) (i : Z) :
  0 <= i < len data ->
  skipn (Z.to_nat i) data = at_ data i :: skipn (Z.to_nat (i + 1)) data.
Proof.
  intros Hi. unfold at_, len in *.
  replace (Z.to_nat (i + 1)) with (S (Z.to_nat i)) by lia.
  assert (Hn : (Z.to_nat i < length data)%nat) by lia.
  revert Hn. generalize (Z.to_nat i). clear Hi i.
  induction data as [ | b data IH]; intros n Hn; [cbn in Hn; lia | ].
  destruct n as [ | n]; [reflexivity | ].
  cbn [skipn nth]. apply IH. cbn in Hn. lia.
Qed.

Lemma scanName_Ok (fuel : nat) :
  forall data idx j,
    0 <= idx -> scanName fuel data idx = Ok j -> j < len data ->
    exists name,
      skipn (Z.to_nat idx) data = name ++ Byte.x00 :: skipn (Z.to_nat (j + 1)) data
      /\ len name = j - idx /\ Forall (fun b => b <> Byte.x00) name.
Proof.
  assert (Hstop : forall (data : list byte) idx j,
             0 <= idx ->
             (idx <? len data) && negb (byte.unsigned (at_ data idx) =? 0) = false ->
             Ok idx = Ok j -> j < len data ->
             exists name,
               skipn (Z.to_nat idx) data
               = name ++ Byte.x00 :: skipn (Z.to_nat (j + 1)) data
               /\ len name = j - idx /\ Forall (fun b => b <> Byte.x00) name).
  { intros data idx j Hi Hc [= <-] Hj. exists [].
    destruct (Z.ltb_spec idx (len data)); [ | lia]. cbn [andb] in Hc.
    apply negb_false_iff, Z.eqb_eq, unsigned_eq_0 in Hc.
    rewrite skipn_at, Hc by lia.
    repeat split; [rewrite len_nil; lia | constructor]. }
  induction fuel as [ | fuel IH]; intros data idx j Hi; cbn [scanName].
  - destruct (_ && _) eqn:Hc; [discriminate | now apply Hstop].
  - destruct (_ && _) eqn:Hc; [ | now apply Hstop].
    apply andb_true_iff in Hc as (Hlt & Hnz0).
    apply Z.ltb_lt in Hlt. apply negb_true_iff, Z.eqb_neq in Hnz0.
    intros H Hj.
    destruct (IH data (idx + 1) j ltac:(lia) H Hj) as (name & Hs & Hl & Hnz).
    exists (at_ data idx :: name). repeat split.
    + rewrite skipn_at by lia. now rewrite Hs.
    + rewrite len_cons. lia.
    + constructor; [ | assumption]. intros E'. apply Hnz0. now rewrite E'.
Qed.

Lemma parseParams_Ok (fuel : nat) :
  forall data idx acc ps,
    0 <= idx <= len data -> parseParams fuel data idx acc = Ok ps ->
    exists ps' trailing,
      ps = acc ++ ps'
      /\ skipn (Z.to_nat idx) data = encodeParams ps' ++ trailing
      /\ len trailing < 4 /\ Forall wfParam ps'.
Proof.
  assert (Hstop : forall (data : list byte) idx, 0 <= idx <= len data ->
             len data < idx + 4 -> len (skipn (Z.to_nat idx) data) < 4).
  { intros data idx Hi Hlt. unfold len in *. rewrite length_skipn. lia. }
  induction fuel as [ | fuel IH]; intros data idx acc ps Hi; cbn [parseParams].
  all: destruct (Z.leb_spec (idx + 4) (len data)) as [Hle | Hgt]; try discriminate.
  all: try (intros [= <-]; exists [], (skipn (Z.to_nat idx) data);
            rewrite app_nil_r; repeat split; [now apply Hstop | constructor]).
  set (key := be16 (at_ data idx) (at_ data (idx + 1))).
  set (length := be16 (at_ data (idx + 2)) (at_ data (idx + 3))).
  pose proof (be16_range (at_ data idx) (at_ data (idx + 1))) as Hkey.
  pose proof (be16_range (at_ data (idx + 2)) (at_ data (idx + 3))) as Hlen.
  fold key in Hkey. fold length in Hlen.
  destruct (Z.gtb_spec (idx + 4 + length) (len data)) as [ | Hfit]; [discriminate | ].
  set (value := slice data (idx + 4) (idx + 4 + length)).
  intros H.
  destruct (IH data (idx + 4 + length) _ ps ltac:(lia) H)
    as (ps' & trailing & -> & Hs & Ht & Hwf).
  assert (Hvalue : skipn (Z.to_nat (idx + 4)) data
                   = value ++ skipn (Z.to_nat (idx + 4 + length)) data).
  { unfold value, slice.
    replace (Z.to_nat (idx + 4 + length))
      with (Z.to_nat (idx + 4 + length - (idx + 4)) + Z.to_nat (idx + 4))%nat by lia.
    rewrite <- skipn_skipn. now rewrite firstn_skipn. }
  assert (Hvlen : len value = length).
  { unfold value, slice, len in *. rewrite length_firstn, length_skipn. lia. }
  exists (mkSvcParam key value :: ps'), trailing. repeat split.
  - now rewrite <- app_assoc.
  - cbn [encodeParams flat_map]. fold (encodeParams ps').
    unfold encodeParam. cbn [Key Value]. rewrite Hvlen.
    unfold key, length at 1. rewrite !bigEndian16_be16.
    rewrite <- !app_assoc. cbn [app]. rewrite <- Hs, <- Hvalue.
    rewrite (skipn_at data idx) by lia.
    rewrite (skipn_at data (idx + 1)) by lia.
    replace (idx + 1 + 1) with (idx + 2) by lia.
    rewrite (skipn_at data (idx + 2)) by lia.
    replace (idx + 2 + 1) with (idx + 3) by lia.
    rewrite (skipn_at data (idx + 3)) by lia.
    replace (idx + 3 + 1) with (idx + 4) by lia.
    reflexivity.
  - assumption.
  - constructor; [ | assumption]. split; cbn [Key Value]; lia.
Qed.

(** What the HTTPS-record decoder accepts is the wire form of the record it
    returns, followed by fewer than 4 bytes. *)
Theorem parseHttpsRecord_accepts (data : list byte) (r : HttpsRecord) :
  parseHttpsRecord data = Ok r ->
  exists trailing,
    data = encodeRecord r ++ trailing /\ len trailing < 4 /\ wfRecord r.
Proof.
  unfold parseHttpsRecord.
  destruct (Z.ltb_spec (len data) 3) as [ | H3]; [discriminate | ].
  destruct (scanName (length data) data 2) as [j | | ] eqn:Es; try discriminate.
  destruct (Z.geb_spec j (len data)) as [ | Hj]; [discriminate | ].
  destruct (parseParams (length data) data (j + 1) []) as [ps | | ] eqn:Ep;
    try discriminate.
  intros [= <-].
  pose proof (scanName_bound _ _ _ _ Es) as H2j.
  destruct (scanName_Ok (length data) data 2 j ltac:(lia) Es Hj)
    as (name & Hs & Hl & Hnz).
  destruct (parseParams_Ok (length data) data (j + 1) [] ps ltac:(lia) Ep)
    as (ps' & trailing & Hps & Hs' & Ht & Hwf).
  cbn [app] in Hps. subst ps'.
  assert (Hname : slice data 2 j = name).
  { unfold slice. rewrite Hs.
    replace (Z.to_nat (j - 2)) with (length name + 0)%nat by (unfold len in Hl; lia).
    rewrite firstn_app_2, firstn_O. apply app_nil_r. }
  exists trailing. rewrite Hname. repeat split; try assumption.
  - unfold encodeRecord. cbn [Priority TargetName Params].
    rewrite bigEndian16_be16. rewrite <- !app_assoc. cbn [app].
    rewrite <- Hs', <- Hs.
    change (Z.to_nat 2) with (Z.to_nat (1 + 1)).
    rewrite <- (skipn_at data 1) by lia.
    change (Z.to_nat 1) with (Z.to_nat (0 + 1)).
    rewrite <- (skipn_at data 0) by lia.
    reflexivity.
  - apply be16_range.
  - apply be16_range.
Qed.

(** * Further properties of the codec *)

(** ** The ECHConfigList decoder: errors and results *)

Lemma readCipherSuites_Err (fuel : nat) :
  forall cs acc e,
    readCipherSuites fuel cs acc = Err e -> e = errMalformedECHConfig.
Proof.
  induction fuel as [ | fuel IH]; intros cs acc e; cbn [readCipherSuites];
    destruct (Empty cs); try discriminate.
  repeat (read_step; [ | now intros [= <-]]).
  apply IH.
Qed.

Lemma readExtensions_Err (fuel : nat) :
  forall es acc e,
    readExtensions fuel es acc = Err e -> e = errMalformedECHConfig.
Proof.
  induction fuel as [ | fuel IH]; intros es acc e; cbn [readExtensions];
    destruct (Empty es); try discriminate.
  repeat (read_step; [ | now intros [= <-]]).
  apply IH.
Qed.

Lemma readFields_Err (raw0 : list byte) (version length : Z) (s : String) (e : error) :
  readFields raw0 version length s = Err e -> e = errMalformedECHConfig.
Proof.
  unfold readFields.
  repeat (read_step; [ | now intros [= <-]]).
  destruct (readCipherSuites _ _ _) eqn:Ec; try discriminate.
  2: { intros [= <-]. now apply readCipherSuites_Err in Ec. }
  repeat (read_step; [ | now intros [= <-]]).
  destruct (readExtensions _ _ _) eqn:Ee; try discriminate.
  intros [= <-]. now apply readExtensions_Err in Ee.
Qed.

Lemma parseEntries_Err (fuel : nat) :
  forall s configs e,
    parseEntries fuel s configs = Err e -> e = errMalformedECHConfig.
Proof.
  induction fuel as [ | fuel IH]; intros s configs e; cbn [parseEntries];
    destruct (negb (0 <? len s)); try discriminate.
  repeat (read_step; [ | now intros [= <-]]).
  destruct (_ <? _); [now intros [= <-] | ].
  destruct (negb _); [apply IH | ].
  destruct (readFields _ _ _ _) as [[ec s'] | e' | ] eqn:Ef; try discriminate.
  - apply IH.
  - intros [= <-]. now apply readFields_Err in Ef.
Qed.

(** X1: The decoder has one way to fail: on every input it returns a list of
    configs or the malformed-list error. *)
Theorem parseECHConfigList_outcomes (data : list byte) :
  (exists configs, parseECHConfigList data = Ok configs)
  \/ parseECHConfigList data = Err errMalformedECHConfig.
Proof.
  pose proof (parseECHConfigList_terminates data) as Ht.
  destruct (parseECHConfigList data) as [configs | e | ] eqn:E.
  - left. now exists configs.
  - right. f_equal. revert E. unfold parseECHConfigList.
    read_step; [ | now intros [= <-]].
    destruct (negb _); [now intros [= <-] | ].
    apply parseEntries_Err.
  - congruence.
Qed.

(** X2: A well-formed list of any number of entries decodes to its recognized
    entries, in the order they stand in; the entries of other versions leave
    no trace. *)
Theorem parseECHConfigList_roundtrip (es : list entry) :
  Forall wfEntry es -> len (encodeEntries es) < 65536 ->
  parseECHConfigList (encodeList es) = Ok (recognized es).
Proof. apply parseECHConfigList_encodeList. Qed.

Lemma parseECHConfigList_roundtrip_witness :
  parseECHConfigList
    (encodeList [Known sampleConfig; Unknown 0xfe0a [Byte.x01]; Known sampleConfig;
                 Unknown 0 []])
  = Ok [sampleConfig; sampleConfig].
Proof.
  apply (parseECHConfigList_roundtrip
           [Known sampleConfig; Unknown 0xfe0a [Byte.x01]; Known sampleConfig;
            Unknown 0 []]).
  - repeat (constructor; [first [exact sampleConfig_wf | cbn; repeat split; (lia || discriminate)] | ]).
    constructor.
  - reflexivity.
Defined.

(** X3: An accepted input of fewer than 65538 bytes carries exactly the length
    its prefix declares. *)
Theorem parseECHConfigList_accepts_exact_length (data : list byte)
    (configs : list echConfig) :
  parseECHConfigList data = Ok configs -> len data < 65538 ->
  exists hi lo s, data = hi :: lo :: s /\ be16 hi lo = len s.
Proof.
  intros H Hsmall.
  destruct data as [ | hi [ | lo s]]; try discriminate.
  exists hi, lo, s. split; [reflexivity | ].
  destruct (Z.eq_dec (be16 hi lo) (len s)) as [E | E]; [exact E | ].
  rewrite parseECHConfigList_prefix_mismatch in H by assumption. discriminate.
Qed.

Lemma parseECHConfigList_accepts_exact_length_witness :
  exists hi lo s,
    encodeList [Known sampleConfig] = hi :: lo :: s /\ be16 hi lo = len s.
Proof.
  apply (parseECHConfigList_accepts_exact_length
           (encodeList [Known sampleConfig]) [sampleConfig]).
  - reflexivity.
  - reflexivity.
Defined.

Lemma readLengthPrefixed_2_len (s v s' : String) :
  ReadUint16LengthPrefixed s = Some (v, s') -> len v < 65536.
Proof.
  intros H. apply readLengthPrefixed_Some in H as (lb & _ & Hl & Hv).
  destruct lb as [ | a [ | b [ | ? ?]]]; repeat rewrite ?len_cons, ?len_nil in Hl;
    try (pose proof (len_nonneg l); lia); try lia.
  rewrite Hv, prefixLength_2. apply be16_range.
Qed.

Lemma readLengthPrefixed_1_len (s v s' : String) :
  ReadUint8LengthPrefixed s = Some (v, s') -> len v < 256.
Proof.
  intros H. apply readLengthPrefixed_Some in H as (lb & _ & Hl & Hv).
  destruct lb as [ | a [ | ? ?]]; repeat rewrite ?len_cons, ?len_nil in Hl;
    try (pose proof (len_nonneg l); lia); try lia.
  rewrite Hv, prefixLength_1. apply unsigned_range.
Qed.

Lemma readExtensions_wf (fuel : nat) :
  forall es acc exts,
    Forall wfExtension acc -> readExtensions fuel es acc = Ok exts ->
    Forall wfExtension exts.
Proof.
  induction fuel as [ | fuel IH]; intros es acc exts Hacc; cbn [readExtensions];
    destruct (Empty es); try discriminate; try (now intros [= <-]).
  read_step; [ | discriminate].
  destruct (ReadUint16LengthPrefixed _) as [[data rest] | ] eqn:E; [ | discriminate].
  apply readLengthPrefixed_2_len in E.
  apply IH. apply Forall_app. split; [assumption | ].
  constructor; [ | constructor]. split; [apply be16_range | exact E].
Qed.

(** What [readFields] returns keeps [raw], version and length as given, and
    has every field within the width it was read from. *)
Lemma readFields_Ok (raw0 : list byte) (version length : Z) (s s' : String)
    (ec : echConfig) :
  readFields raw0 version length s = Ok (ec, s') ->
  raw ec = raw0 /\ Version ec = version /\ Length ec = length
  /\ 0 <= ConfigID ec < 256 /\ 0 <= KemID ec < 65536
  /\ len (PublicKey ec) < 65536 /\ Forall wfSuite (SymmetricCipherSuite ec)
  /\ 0 <= MaxNameLength ec < 256 /\ len (PublicName ec) < 256
  /\ Forall wfExtension (Extensions ec).
Proof.
  unfold readFields.
  destruct (ReadUint8 s) as [[configID s1] | ] eqn:E1; [ | discriminate].
  destruct (ReadUint16 s1) as [[kemID s2] | ] eqn:E2; [ | discriminate].
  destruct (ReadUint16LengthPrefixed s2) as [[publicKey s3] | ] eqn:E3; [ | discriminate].
  destruct (ReadUint16LengthPrefixed s3) as [[cipherSuites s4] | ] eqn:E4; [ | discriminate].
  destruct (readCipherSuites _ _ _) as [suites | | ] eqn:Ec; try discriminate.
  destruct (ReadUint8 s4) as [[maxNameLength s5] | ] eqn:E5; [ | discriminate].
  destruct (ReadUint8LengthPrefixed s5) as [[publicName s6] | ] eqn:E6; [ | discriminate].
  destruct (ReadUint16LengthPrefixed s6) as [[extensions s7] | ] eqn:E7; [ | discriminate].
  destruct (readExtensions _ _ _) as [exts | | ] eqn:Ee; try discriminate.
  intros [= <- <-]. cbn.
  apply ReadUint8_Some in E1 as (b1 & _ & ->).
  apply ReadUint16_Some in E2 as (h2 & l2 & _ & ->).
  apply ReadUint8_Some in E5 as (b5 & _ & ->).
  apply readLengthPrefixed_2_len in E3.
  apply readLengthPrefixed_1_len in E6.
  apply readCipherSuites_wf in Ec; [ | constructor].
  apply readExtensions_wf in Ee; [ | constructor].
  repeat split; try assumption; try apply unsigned_range; apply be16_range.
Qed.

Lemma parseEntries_configOk (fuel : nat) :
  forall s acc configs,
    len s < 65536 -> Forall configOk acc ->
    parseEntries fuel s acc = Ok configs -> Forall configOk configs.
Proof.
  induction fuel as [ | fuel IH]; intros s acc configs Hs Hacc; cbn [parseEntries];
    destruct (negb (0 <? len s)); try discriminate; try (now intros [= <-]).
  destruct (ReadUint16 s) as [[version s1] | ] eqn:E1; [ | discriminate].
  destruct (ReadUint16 s1) as [[length s2] | ] eqn:E2; [ | discriminate].
  apply ReadUint16_Some in E1 as (v1 & v2 & -> & ->).
  apply ReadUint16_Some in E2 as (l1 & l2 & -> & ->).
  pose proof (be16_range l1 l2) as Hl. pose proof (len_nonneg s2) as H2.
  rewrite !len_cons in Hs.
  destruct (Z.ltb_spec (len (v1 :: v2 :: l1 :: l2 :: s2)) (be16 l1 l2 + 4)) as [ | Hfit];
    [discriminate | ].
  rewrite !len_cons in Hfit.
  destruct (negb _) eqn:Ev.
  - apply IH; [ | assumption]. unfold Skip.
    destruct (read _ _) as [[v s'] | ] eqn:E; [ | lia].
    apply read_Some in E as (_ & _ & -> & _). rewrite len_app in Hs.
    pose proof (len_nonneg v). lia.
  - apply negb_false_iff, Z.eqb_eq in Ev.
    destruct (readFields _ _ _ _) as [[ec s'] | | ] eqn:Ef; try discriminate.
    pose proof (readFields_shorter _ _ _ _ _ _ Ef) as Hshort.
    apply readFields_Ok in Ef
      as (Hraw & Hver & Hlen & Hid & Hkem & Hpk & Hsu & Hmax & Hname & Hext).
    apply IH; [unfold len in *; lia | ].
    apply Forall_app. split; [assumption | ]. constructor; [ | constructor].
    unfold configOk. rewrite Hraw, Hver, Hlen.
    unfold uint16. rewrite Z.mod_small by lia.
    repeat split; try assumption; try lia.
    + unfold len. rewrite length_firstn. cbn [length]. unfold len in *. lia.
    + rewrite firstn_firstn.
      replace (Nat.min 4 (Z.to_nat (be16 l1 l2 + 4))) with 4%nat by lia.
      cbn [firstn]. now rewrite !bigEndian16_be16.
Qed.

(** X4: Every config decoded from an input of fewer than 65538 bytes has the
    recognized version, [raw] of the declared length behind the 4-byte
    header that says so, and every field within its width on the wire. *)
Theorem parseECHConfigList_configOk (data : list byte) (configs : list echConfig) :
  parseECHConfigList data = Ok configs -> len data < 65538 ->
  Forall configOk configs.
Proof.
  unfold parseECHConfigList. intros H Hsmall.
  destruct (ReadUint16 data) as [[length s] | ] eqn:E; [ | discriminate].
  apply ReadUint16_Some in E as (hi & lo & -> & ->).
  destruct (negb _); [discriminate | ].
  rewrite !len_cons in Hsmall.
  now apply parseEntries_configOk in H; [ | lia | constructor].
Qed.

Lemma parseECHConfigList_configOk_witness : Forall configOk [sampleConfig; sampleConfig].
Proof.
  apply (parseECHConfigList_configOk
           (encodeList [Known sampleConfig; Unknown 0xfe0a [Byte.x01]; Known sampleConfig])).
  - reflexivity.
  - reflexivity.
Defined.

(** The decode of a list that starts with well-formed entries fails when
    the entry loop fails on what follows them. *)
Lemma parseECHConfigList_stuck (es : list entry) (p1 p2 : byte) (tail : list byte) :
  Forall wfEntry es ->
  (forall fuel acc, (length tail <= fuel)%nat ->
                    parseEntries fuel tail acc = Err errMalformedECHConfig) ->
  parseECHConfigList ([p1; p2] ++ encodeEntries es ++ tail)
  = Err errMalformedECHConfig.
Proof.
  intros Hwf Htail. unfold parseECHConfigList. cbn [app].
  rewrite ReadUint16_cons. destruct (negb _); [reflexivity | ].
  pose proof (encodeEntries_length es). rewrite length_app.
  replace (length (encodeEntries es) + length tail)%nat
    with (length es + (length (encodeEntries es) - length es + length tail))%nat by lia.
  rewrite parseEntries_encoded by assumption.
  apply Htail. lia.
Qed.

(** X5: An entry header cut short -- 1 to 3 bytes where the 4 bytes of version
    and length should stand -- fails the whole decode. *)
Theorem parseECHConfigList_truncated_header (es : list entry) (p1 p2 : byte)
    (tail : list byte) :
  Forall wfEntry es -> 1 <= len tail <= 3 ->
  parseECHConfigList ([p1; p2] ++ encodeEntries es ++ tail)
  = Err errMalformedECHConfig.
Proof.
  intros Hwf Ht. apply parseECHConfigList_stuck; [assumption | ].
  intros fuel acc Hf.
  destruct tail as [ | a tail]; [rewrite len_nil in Ht; lia | ].
  destruct fuel as [ | fuel]; [cbn in Hf; lia | ].
  cbn [parseEntries]. rewrite len_cons in *. pose proof (len_nonneg tail).
  destruct (Z.ltb_spec 0 (1 + len tail)); [cbn [negb] | lia].
  destruct tail as [ | b tail]; [reflexivity | ].
  rewrite ReadUint16_cons. rewrite len_cons in Ht.
  rewrite ReadUint16_short; [reflexivity | lia].
Qed.

Lemma parseECHConfigList_truncated_header_witness :
  parseECHConfigList
    ([Byte.x00; Byte.x08] ++ encodeEntries [Unknown 0xfe0a [Byte.x01]]
     ++ [Byte.xfe; Byte.x0d; Byte.x00])
  = Err errMalformedECHConfig.
Proof.
  apply (parseECHConfigList_truncated_header [Unknown 0xfe0a [Byte.x01]]
           Byte.x00 Byte.x08 [Byte.xfe; Byte.x0d; Byte.x00]).
  - repeat constructor; cbn; try lia; discriminate.
  - cbn. lia.
Defined.



(** X7: The fields of a recognized entry are decoded from the bytes that follow
    its header whatever length, up to the number of those bytes, the header
    declares: the declared length sets [Length] and the extent of [raw], and
    nothing else of the result. *)
Theorem parseECHConfigList_declared_length_unused (c : echConfig) (L : Z) :
  wfFields c -> 0 <= L <= len (encodeBody c) ->
  parseECHConfigList
    (bigEndian16 (len (encodeBody c) + 4)
     ++ bigEndian16 extensionEncryptedClientHello ++ bigEndian16 L ++ encodeBody c)
  = Ok [mkConfig
          (firstn (Z.to_nat (L + 4))
             (bigEndian16 extensionEncryptedClientHello ++ bigEndian16 L
              ++ encodeBody c))
          extensionEncryptedClientHello L
          (ConfigID c) (KemID c) (PublicKey c) (SymmetricCipherSuite c)
          (MaxNameLength c) (PublicName c) (Extensions c)].
Proof.
  intros (Hfit & Hid & Hkem & Hs & Hmax & Hname & He) HL.
  pose proof (len_nonneg (encodeBody c)) as Hb.
  unfold parseECHConfigList.
  rewrite ReadUint16_bigEndian16 by lia.
  repeat rewrite ?len_app, ?len_bigEndian16. unfold uint16.
  replace (2 + (2 + (2 + len (encodeBody c))) - 2) with (len (encodeBody c) + 4) by lia.
  rewrite Z.mod_small by lia. rewrite Z.eqb_refl. cbn [negb].
  set (entry := bigEndian16 extensionEncryptedClientHello ++ bigEndian16 L ++ encodeBody c).
  assert (Hlen : len entry = len (encodeBody c) + 4)
    by (unfold entry; rewrite !len_app, !len_bigEndian16; lia).
  assert (Hfuel : exists fuel, length entry = S fuel).
  { exists (pred (length entry)). unfold len in Hlen. lia. }
  destruct Hfuel as (fuel & ->).
  cbn [parseEntries]. rewrite Hlen.
  destruct (Z.ltb_spec 0 (len (encodeBody c) + 4)); [cbn [negb] | lia].
  unfold entry at 1.
  rewrite ReadUint16_bigEndian16 by (unfold extensionEncryptedClientHello; lia).
  rewrite ReadUint16_bigEndian16 by lia.
  destruct (Z.ltb_spec (len (encodeBody c) + 4) (L + 4)); [lia | ].
  rewrite Z.eqb_refl. cbn [negb].
  unfold uint16. rewrite (Z.mod_small (L + 4)) by lia.
  rewrite <- (app_nil_r (encodeBody c)) at 1.
  rewrite readFields_encoded by (assumption || lia).
  now rewrite parseEntries_nil.
Qed.

Lemma parseECHConfigList_declared_length_unused_witness :
  parseECHConfigList
    (bigEndian16 (len (encodeBody sampleConfig) + 4)
     ++ bigEndian16 extensionEncryptedClientHello ++ bigEndian16 3
     ++ encodeBody sampleConfig)
  = Ok [mkConfig
          (firstn (Z.to_nat (3 + 4))
             (bigEndian16 extensionEncryptedClientHello ++ bigEndian16 3
              ++ encodeBody sampleConfig))
          extensionEncryptedClientHello 3
          (ConfigID sampleConfig) (KemID sampleConfig) (PublicKey sampleConfig)
          (SymmetricCipherSuite sampleConfig) (MaxNameLength sampleConfig)
          (PublicName sampleConfig) (Extensions sampleConfig)].
Proof.
  apply (parseECHConfigList_declared_length_unused sampleConfig 3).
  - repeat split; try (cbn; lia); repeat constructor; cbn; lia.
  - cbn. lia.
Defined.

(** ** The HTTPS-record decoder: errors *)

Lemma scanName_not_Err (fuel : nat) :
  forall data idx e, scanName fuel data idx <> Err e.
Proof.
  induction fuel as [ | fuel IH]; intros data idx e; cbn [scanName];
    destruct (_ && _); try discriminate.
  apply IH.
Qed.

Lemma parseParams_Err (fuel : nat) :
  forall data idx params e,
    parseParams fuel data idx params = Err e -> e = errInvalidParameterLength.
Proof.
  induction fuel as [ | fuel IH]; intros data idx params e; cbn [parseParams];
    destruct (_ <=? _); try discriminate.
  destruct (_ >? _); [now intros [= <-] | apply IH].
Qed.

(** A scan that runs to the end of the data has seen no zero byte. *)
Lemma scanName_past_end (fuel : nat) :
  forall data idx j,
    0 <= idx <= len data -> scanName fuel data idx = Ok j -> len data <= j ->
    Forall (fun b => b <> Byte.x00) (skipn (Z.to_nat idx) data).
Proof.
  assert (Hstop : forall (data : list byte) idx j,
             0 <= idx <= len data ->
             (idx <? len data) && negb (byte.unsigned (at_ data idx) =? 0) = false ->
             Ok idx = Ok j -> len data <= j ->
             Forall (fun b => b <> Byte.x00) (skipn (Z.to_nat idx) data)).
  { intros data idx j Hi _ [= <-] Hj.
    rewrite skipn_all2 by (unfold len in *; lia). constructor. }
  induction fuel as [ | fuel IH]; intros data idx j Hi; cbn [scanName].
  - destruct (_ && _) eqn:Hc; [discriminate | now apply Hstop].
  - destruct (_ && _) eqn:Hc; [ | now apply Hstop].
    apply andb_true_iff in Hc as (Hlt & Hnz).
    apply Z.ltb_lt in Hlt. apply negb_true_iff, Z.eqb_neq in Hnz.
    intros H Hj. rewrite skipn_at by lia. constructor.
    + intros E. apply Hnz. now rewrite E.
    + apply (IH data (idx + 1) j); (lia || assumption).
Qed.

(** Without a zero byte the scan runs to the end of the data. *)
Lemma scanName_no_zero (name : list byte) :
  forall fuel pre,
    Forall (fun b => b <> Byte.x00) name -> (length name <= fuel)%nat ->
    scanName fuel (pre ++ name) (len pre) = Ok (len (pre ++ name)).
Proof.
  induction name as [ | b name IH]; intros fuel pre Hnz Hf.
  - assert (E : (len pre <? len (pre ++ [])) = false)
      by (apply Z.ltb_ge; rewrite app_nil_r; lia).
    destruct fuel; cbn [scanName]; rewrite E; cbn [andb]; now rewrite app_nil_r.
  - destruct fuel as [ | fuel]; [cbn in Hf; lia | ].
    inversion Hnz as [ | ? ? Hb Hnz']; subst.
    assert (E : (len pre <? len (pre ++ b :: name))
                && negb (byte.unsigned (at_ (pre ++ b :: name) (len pre)) =? 0) = true).
    { rewrite at_app_0. change (at_ (b :: name) 0) with b.
      apply andb_true_intro. split.
      - apply Z.ltb_lt. rewrite len_app, len_cons. pose proof (len_nonneg name). lia.
      - apply negb_true_iff, Z.eqb_neq. intros E. now apply unsigned_eq_0 in E. }
    cbn [scanName]. rewrite E.
    replace (pre ++ b :: name) with ((pre ++ [b]) ++ name) by (now rewrite <- app_assoc).
    replace (len pre + 1) with (len (pre ++ [b])) by (rewrite len_app; reflexivity).
    apply IH; [assumption | cbn in Hf; lia].
Qed.

(** X9: The two errors of the record's head, each with the inputs that raise
    it: fewer than 3 bytes; and 3 bytes or more without a zero byte from
    offset 2 on. *)
Theorem parseHttpsRecord_head_errors (data : list byte) :
  (parseHttpsRecord data = Err errInvalidDataLength <-> len data < 3)
  /\ (parseHttpsRecord data = Err errInvalidTargetName <->
      3 <= len data /\ Forall (fun b => b <> Byte.x00) (skipn 2 data)).
Proof.
  unfold parseHttpsRecord.
  destruct (Z.ltb_spec (len data) 3) as [Hlt | Hge].
  { split; split; try reflexivity; try discriminate; lia. }
  destruct (scanName (length data) data 2) as [j | e | ] eqn:Es.
  2: { now apply scanName_not_Err in Es. }
  2: { now apply scanName_fuel in Es; [ | unfold len; lia]. }
  destruct (Z.geb_spec j (len data)) as [Hj | Hj].
  - split; split; try discriminate; try lia; [ | reflexivity].
    intros _. split; [assumption | ].
    apply (scanName_past_end (length data) data 2 j); (lia || assumption).
  - assert (Hother : forall e, e <> errInvalidParameterLength ->
               match parseParams (length data) data (j + 1) [] with
               | Ok params => Ok (mkHttpsRecord (be16 (at_ data 0) (at_ data 1))
                                                (slice data 2 j) params)
               | Err e => Err e
               | OutOfFuel => OutOfFuel
               end <> Err e).
    { intros e He. destruct (parseParams _ _ _ _) eqn:Ep; try discriminate.
      intros [= ->]. now apply parseParams_Err in Ep. }
    split; split; try lia.
    + intros H. now apply Hother in H.
    + intros H. now apply Hother in H.
    + intros (_ & Hall). exfalso.
      assert (Hl2 : len (firstn 2 data) = 2)
        by (unfold len in *; rewrite length_firstn; lia).
      assert (Es' : scanName (length data) (firstn 2 data ++ skipn 2 data)
                             (len (firstn 2 data))
                    = Ok (len (firstn 2 data ++ skipn 2 data))).
      { apply scanName_no_zero; [exact Hall | rewrite length_skipn; lia]. }
      rewrite firstn_skipn, Hl2 in Es'. rewrite Es in Es'.
      injection Es' as ->. lia.
Qed.

(** One turn of the parameter loop on an encoded parameter. *)
Lemma parseParams_step (fuel : nat) (pre : list byte) (p : SvcParam)
    (rest : list byte) (params : list SvcParam) :
  wfParam p ->
  parseParams (S fuel) (pre ++ encodeParam p ++ rest) (len pre) params
  = parseParams fuel (pre ++ encodeParam p ++ rest) (len pre + len (encodeParam p))
                (params ++ [p]).
Proof.
  intros [Hk Hv].
  pose proof (len_nonneg (Value p)) as Hv0. pose proof (len_nonneg rest) as Hr0.
  remember (pre ++ encodeParam p ++ rest) as data eqn:Hd.
  assert (Hl : len data = len pre + (4 + len (Value p)) + len rest)
    by (rewrite Hd, !len_app, len_encodeParam; lia).
  destruct (at_header pre (byte.of_Z (Key p / 256)) (byte.of_Z (Key p mod 256))
              (byte.of_Z (len (Value p) / 256)) (byte.of_Z (len (Value p) mod 256))
              (Value p ++ rest)) as (H0 & H1 & H2 & H3).
  assert (Hd' : data = pre ++ byte.of_Z (Key p / 256) :: byte.of_Z (Key p mod 256)
                  :: byte.of_Z (len (Value p) / 256) :: byte.of_Z (len (Value p) mod 256)
                  :: Value p ++ rest).
  { rewrite Hd. unfold encodeParam, bigEndian16. rewrite <- !app_assoc. reflexivity. }
  rewrite <- Hd' in H0, H1, H2, H3.
  assert (Hs : slice data (len pre + 4) (len pre + 4 + len (Value p)) = Value p).
  { rewrite Hd. unfold encodeParam. rewrite <- !app_assoc.
    rewrite (app_assoc pre), (app_assoc (pre ++ _)).
    replace (len pre + 4) with (len ((pre ++ bigEndian16 (Key p))
                                     ++ bigEndian16 (len (Value p))))
      by (rewrite !len_app, !len_bigEndian16; lia).
    apply slice_app. }
  cbn [parseParams].
  rewrite H0, H1, H2, H3, !be16_of_Z, Hs, Hl by lia.
  destruct (Z.leb_spec (len pre + 4) (len pre + (4 + len (Value p)) + len rest)); [ | lia].
  destruct (Z.gtb_spec (len pre + 4 + len (Value p))
              (len pre + (4 + len (Value p)) + len rest)); [lia | ].
  rewrite len_encodeParam.
  replace (len pre + (4 + len (Value p))) with (len pre + 4 + len (Value p)) by lia.
  now destruct p.
Qed.

(** The parameter loop on a run of encoded parameters comes out behind the
    run with the parameters appended, whatever follows. *)
Lemma parseParams_prefix (ps : list SvcParam) :
  forall fuel pre params rest,
    Forall wfParam ps ->
    parseParams (length ps + fuel) (pre ++ encodeParams ps ++ rest) (len pre) params
    = parseParams fuel (pre ++ encodeParams ps ++ rest)
                  (len pre + len (encodeParams ps)) (params ++ ps).
Proof.
  induction ps as [ | p ps IH]; intros fuel pre params rest Hwf.
  - cbn [encodeParams flat_map app length Nat.add]. rewrite len_nil, app_nil_r.
    f_equal. lia.
  - inversion Hwf as [ | ? ? Hp Hwf']; subst.
    cbn [encodeParams flat_map length Nat.add]. fold (encodeParams ps).
    rewrite <- (app_assoc (encodeParam p)).
    rewrite parseParams_step by assumption.
    rewrite (app_assoc pre (encodeParam p)).
    replace (len pre + len (encodeParam p)) with (len (pre ++ encodeParam p))
      by apply len_app.
    rewrite IH by assumption.
    rewrite <- (app_assoc params). cbn [app]. f_equal.
    rewrite !len_app. lia.
Qed.

(** After a well-formed head -- priority, name, zero byte -- the decode is
    the parameter loop from the byte behind the zero byte. *)
Lemma parseHttpsRecord_head (priority : Z) (name tail : list byte) :
  0 <= priority < 65536 -> Forall (fun b => b <> Byte.x00) name ->
  parseHttpsRecord (bigEndian16 priority ++ name ++ Byte.x00 :: tail)
  = match parseParams (length (bigEndian16 priority ++ name ++ Byte.x00 :: tail))
                      (bigEndian16 priority ++ name ++ Byte.x00 :: tail)
                      (len (bigEndian16 priority ++ name ++ [Byte.x00])) [] with
    | Ok params => Ok (mkHttpsRecord priority name params)
    | Err e => Err e
    | OutOfFuel => OutOfFuel
    end.
Proof.
  intros Hp Hn. unfold parseHttpsRecord.
  remember (bigEndian16 priority ++ name ++ Byte.x00 :: tail) as data eqn:Hd.
  assert (Hl : len data = 3 + len name + len tail).
  { rewrite Hd. repeat rewrite ?len_app, ?len_cons, ?len_bigEndian16. lia. }
  pose proof (len_nonneg name). pose proof (len_nonneg tail).
  destruct (Z.ltb_spec (len data) 3); [lia | ].
  assert (Hprio : be16 (at_ data 0) (at_ data 1) = priority).
  { rewrite Hd. unfold bigEndian16. cbn [app]. unfold at_.
    cbn [Z.to_nat Pos.to_nat Pos.iter_op nth]. now apply be16_of_Z. }
  rewrite Hprio.
  assert (Hscan : scanName (length data) data 2 = Ok (2 + len name)).
  { rewrite Hd at 2. change 2 with (len (bigEndian16 priority)).
    apply scanName_encoded; [assumption | ].
    rewrite Hd. rewrite !length_app. lia. }
  rewrite Hscan.
  destruct (Z.geb_spec (2 + len name) (len data)); [lia | ].
  assert (Hname : slice data 2 (2 + len name) = name).
  { rewrite Hd. change 2 with (len (bigEndian16 priority)). apply slice_app. }
  rewrite Hname.
  replace (len (bigEndian16 priority ++ name ++ [Byte.x00])) with (2 + len name + 1)
    by (rewrite !len_app, len_bigEndian16, len_cons, len_nil; lia).
  reflexivity.
Qed.

(** X10: A parameter that declares more value bytes than are left fails the
    whole decode with the parameter-length error, wherever in the record it
    stands; the parameters decoded before it are not returned. *)
Theorem parseHttpsRecord_param_overruns (r : HttpsRecord) (k1 k2 l1 l2 : byte)
    (rest : list byte) :
  wfRecord r -> len rest < be16 l1 l2 ->
  parseHttpsRecord (encodeRecord r ++ [k1; k2; l1; l2] ++ rest)
  = Err errInvalidParameterLength.
Proof.
  intros (Hp & Hn & Hps) Hl.
  destruct r as [priority name ps]. cbn [Priority TargetName Params] in *.
  unfold encodeRecord. cbn [Priority TargetName Params].
  rewrite <- !app_assoc. rewrite <- app_comm_cons.
  rewrite parseHttpsRecord_head by assumption.
  set (pre := bigEndian16 priority ++ name ++ [Byte.x00]).
  set (tail := [k1; k2; l1; l2] ++ rest).
  replace (bigEndian16 priority ++ name ++ Byte.x00 :: encodeParams ps ++ tail)
    with (pre ++ encodeParams ps ++ tail)
    by (unfold pre; now rewrite <- !app_assoc).
  pose proof (encodeParams_length ps) as Hps_len.
  assert (Hfuel : exists fuel, length (pre ++ encodeParams ps ++ tail)
                               = (length ps + S fuel)%nat).
  { exists (length pre + (length (encodeParams ps) - length ps) + 3 + length rest)%nat.
    unfold tail. rewrite !length_app. cbn [length]. lia. }
  destruct Hfuel as (fuel & ->).
  rewrite parseParams_prefix by assumption.
  rewrite (app_assoc pre). rewrite <- len_app.
  set (pre' := pre ++ encodeParams ps).
  destruct (at_header pre' k1 k2 l1 l2 rest) as (_ & _ & H2 & H3).
  unfold tail. cbn [app parseParams].
  rewrite H2, H3. rewrite len_app, !len_cons. pose proof (len_nonneg rest).
  destruct (Z.leb_spec (len pre' + 4) (len pre' + (1 + (1 + (1 + (1 + len rest))))));
    [ | lia].
  destruct (Z.gtb_spec (len pre' + 4 + be16 l1 l2)
              (len pre' + (1 + (1 + (1 + (1 + len rest)))))); [reflexivity | lia].
Qed.

Lemma parseHttpsRecord_param_overruns_witness :
  parseHttpsRecord
    (encodeRecord sampleRecord ++ [Byte.x00; Byte.x05; Byte.x00; Byte.x04]
     ++ [Byte.xaa; Byte.xbb])
  = Err errInvalidParameterLength.
Proof.
  apply (parseHttpsRecord_param_overruns sampleRecord
           Byte.x00 Byte.x05 Byte.x00 Byte.x04 [Byte.xaa; Byte.xbb]).
  - split; [cbn; lia | split; repeat constructor; cbn; lia].
  - reflexivity.
Defined.

(** X11: The record a decode returns, written back, is the input up to its last
    0 to 3 bytes; its priority and keys fit 16 bits, its values fit their
    length field, and its target name has no zero byte. *)
Theorem parseHttpsRecord_decode_encode (data : list byte) (r : HttpsRecord) :
  parseHttpsRecord data = Ok r ->
  exists trailing,
    data = encodeRecord r ++ trailing /\ len trailing < 4 /\ wfRecord r.
Proof. apply parseHttpsRecord_accepts. Qed.

Lemma parseHttpsRecord_decode_encode_witness :
  exists trailing,
    [Byte.x00; Byte.x01; Byte.x61; Byte.x00; Byte.x00; Byte.x05; Byte.x00; Byte.x01;
     Byte.x2a; Byte.xff; Byte.xfe]
    = encodeRecord (mkHttpsRecord 1 [Byte.x61] [mkSvcParam 5 [Byte.x2a]]) ++ trailing
    /\ len trailing < 4
    /\ wfRecord (mkHttpsRecord 1 [Byte.x61] [mkSvcParam 5 [Byte.x2a]]).
Proof.
  apply (parseHttpsRecord_decode_encode
           [Byte.x00; Byte.x01; Byte.x61; Byte.x00; Byte.x00; Byte.x05; Byte.x00;
            Byte.x01; Byte.x2a; Byte.xff; Byte.xfe]).
  reflexivity.
Defined.

(** ** The parameter loop of [getECHConfig] *)

Lemma echConfigParam_app (ps qs : list SvcParam) :
  echConfigParam (ps ++ qs)
  = fold_left (fun echConfig param =>
                 if Key param =? 0x05 then Value param else echConfig)
              qs (echConfigParam ps).
Proof. unfold echConfigParam. apply fold_left_app. Qed.

Lemma echConfigParam_skip (qs : list SvcParam) :
  forall init,
    Forall (fun p => Key p <> 5) qs ->
    fold_left (fun echConfig param =>
                 if Key param =? 0x05 then Value param else echConfig) qs init
    = init.
Proof.
  induction qs as [ | q qs IH]; intros init Hno; [reflexivity | ].
  inversion Hno as [ | ? ? Hq Hno']; subst. cbn [fold_left].
  destruct (Z.eqb_spec (Key q) 5); [contradiction | now apply IH].
Qed.

(** X12: The loop returns the value of the last parameter of key 5, and the
    empty slice when the record has none. *)
Theorem echConfigParam_last_wins (params : list SvcParam) :
  (Forall (fun p => Key p <> 5) params -> echConfigParam params = [])
  /\ (forall before p after,
        params = before ++ p :: after -> Key p = 5 ->
        Forall (fun q => Key q <> 5) after ->
        echConfigParam params = Value p).
Proof.
  split.
  - intros Hno. unfold echConfigParam. now apply echConfigParam_skip.
  - intros before p after -> Hp Hafter.
    rewrite echConfigParam_app. cbn [fold_left].
    destruct (Z.eqb_spec (Key p) 5); [ | contradiction].
    now apply echConfigParam_skip.
Qed.

Lemma echConfigParam_last_wins_witness :
  echConfigParam [mkSvcParam 1 [Byte.x02]; mkSvcParam 4 []] = []
  /\ echConfigParam [mkSvcParam 5 [Byte.x01]; mkSvcParam 1 []; mkSvcParam 5 [Byte.x02];
                     mkSvcParam 4 [Byte.x03]] = [Byte.x02].
Proof.
  split.
  - apply (proj1 (echConfigParam_last_wins [mkSvcParam 1 [Byte.x02]; mkSvcParam 4 []])).
    repeat constructor; discriminate.
  - apply (proj2 (echConfigParam_last_wins
                    [mkSvcParam 5 [Byte.x01]; mkSvcParam 1 []; mkSvcParam 5 [Byte.x02];
                     mkSvcParam 4 [Byte.x03]])
                 [mkSvcParam 5 [Byte.x01]; mkSvcParam 1 []] (mkSvcParam 5 [Byte.x02])
                 [mkSvcParam 4 [Byte.x03]]).
    + reflexivity.
    + reflexivity.
    + repeat constructor; discriminate.
Defined.

Lemma echConfigParam_In (params : list SvcParam) :
  echConfigParam params = []
  \/ exists p, In p params /\ Key p = 5 /\ echConfigParam params = Value p.
Proof.
  induction params as [ | q params IH] using rev_ind; [now left | ].
  rewrite echConfigParam_app. cbn [fold_left].
  destruct (Z.eqb_spec (Key q) 5) as [E | E].
  - right. exists q. split; [apply in_or_app; right; now left | now split].
  - destruct IH as [-> | (p & Hin & Hk & ->)]; [now left | ].
    right. exists p. split; [apply in_or_app; now left | now split].
Qed.

(** X13: From record to configs: the ECH value taken from a decoded record has
    fewer than 65536 bytes, so that, when [parseECHConfigList] accepts it,
    its length prefix is exactly the number of bytes behind it and every
    config returned keeps the decoder's invariants. *)
Theorem record_to_configs (data : list byte) (r : HttpsRecord)
    (configs : list echConfig) :
  parseHttpsRecord data = Ok r ->
  parseECHConfigList (echConfigParam (Params r)) = Ok configs ->
  len (echConfigParam (Params r)) < 65536
  /\ (exists hi lo s,
        echConfigParam (Params r) = hi :: lo :: s /\ be16 hi lo = len s)
  /\ Forall configOk configs.
Proof.
  intros Hr Hc.
  apply parseHttpsRecord_accepts in Hr as (_ & _ & _ & _ & _ & Hps).
  assert (Hlen : len (echConfigParam (Params r)) < 65536).
  { destruct (echConfigParam_In (Params r)) as [-> | (p & Hin & _ & ->)]; [reflexivity | ].
    rewrite Forall_forall in Hps. now apply Hps in Hin as (_ & Hv). }
  split; [exact Hlen | ].
  destruct (echConfigParam (Params r)) as [ | hi [ | lo s]]; try discriminate.
  split.
  - exists hi, lo, s. split; [reflexivity | ].
    destruct (Z.eq_dec (be16 hi lo) (len s)) as [E | E]; [exact E | ].
    rewrite parseECHConfigList_prefix_mismatch in Hc by (assumption || lia).
    discriminate.
  - unfold parseECHConfigList in Hc. rewrite ReadUint16_cons in Hc.
    destruct (negb _); [discriminate | ].
    rewrite !len_cons in Hlen.
    now apply parseEntries_configOk in Hc; [ | lia | constructor].
Qed.

Lemma record_to_configs_witness :
  len (echConfigParam [mkSvcParam 5 (encodeList [Known sampleConfig])]) < 65536
  /\ (exists hi lo s,
        echConfigParam [mkSvcParam 5 (encodeList [Known sampleConfig])] = hi :: lo :: s
        /\ be16 hi lo = len s)
  /\ Forall configOk [sampleConfig].
Proof.
  apply (record_to_configs
           (encodeRecord (mkHttpsRecord 1 []
                            [mkSvcParam 5 (encodeList [Known sampleConfig])]))
           (mkHttpsRecord 1 [] [mkSvcParam 5 (encodeList [Known sampleConfig])])
           [sampleConfig]).
  - reflexivity.
  - reflexivity.
Defined.

(** ** The outer-extension encoder: size and injectivity *)

Lemma generateOuterECHExt_Ok (id kdfID aeadID : Z) (encodedKey payload out : list byte) :
  generateOuterECHExt id kdfID aeadID encodedKey payload = Ok out ->
  len encodedKey < 65536 /\ len payload < 65536
  /\ out = [Byte.x00] ++ bigEndian16 kdfID ++ bigEndian16 aeadID ++ [byte.of_Z id]
           ++ bigEndian16 (len encodedKey) ++ encodedKey
           ++ bigEndian16 (len payload) ++ payload.
Proof.
  rewrite generateOuterECHExt_eq.
  destruct (Z.ltb_spec (len encodedKey) 65536); [ | discriminate].
  destruct (Z.ltb_spec (len payload) 65536); [ | discriminate].
  intros [= <-]. now repeat split.
Qed.

(** X14: Whenever the encoder returns bytes, both fields fit 16 bits of length
    and the output is 10 bytes longer than the two fields together. *)
Theorem generateOuterECHExt_size (id kdfID aeadID : Z)
    (encodedKey payload out : list byte) :
  generateOuterECHExt id kdfID aeadID encodedKey payload = Ok out ->
  len encodedKey <= 65535 /\ len payload <= 65535
  /\ len out = 10 + len encodedKey + len payload.
Proof.
  intros H. apply generateOuterECHExt_Ok in H as (Hk & Hp & ->).
  repeat split; try lia.
  repeat rewrite ?len_app, ?len_cons, ?len_nil, ?len_bigEndian16. lia.
Qed.

Lemma generateOuterECHExt_size_witness :
  len [Byte.x0a; Byte.x0b] <= 65535 /\ len [Byte.x01; Byte.x02; Byte.x03] <= 65535
  /\ len [Byte.x00; Byte.x00; Byte.x01; Byte.x00; Byte.x02; Byte.x07;
          Byte.x00; Byte.x02; Byte.x0a; Byte.x0b;
          Byte.x00; Byte.x03; Byte.x01; Byte.x02; Byte.x03]
     = 10 + len [Byte.x0a; Byte.x0b] + len [Byte.x01; Byte.x02; Byte.x03].
Proof.
  apply (generateOuterECHExt_size 7 1 2 [Byte.x0a; Byte.x0b]
           [Byte.x01; Byte.x02; Byte.x03]).
  reflexivity.
Defined.

Lemma bigEndian16_inj (v w : Z) :
  0 <= v < 65536 -> 0 <= w < 65536 -> bigEndian16 v = bigEndian16 w -> v = w.
Proof.
  intros Hv Hw H. unfold bigEndian16 in H. injection H as Hhi Hlo.
  rewrite <- (be16_of_Z v Hv), <- (be16_of_Z w Hw). now rewrite Hhi, Hlo.
Qed.

Lemma app_inj_len (a a' b b' : list byte) :
  len a = len a' -> a ++ b = a' ++ b' -> a = a' /\ b = b'.
Proof.
  revert a'. induction a as [ | x a IH]; intros [ | x' a'] Hl H;
    rewrite ?len_cons, ?len_nil in Hl;
    try (pose proof (len_nonneg a)); try (pose proof (len_nonneg a')); try lia.
  - now split.
  - cbn [app] in H. injection H as -> H.
    destruct (IH a' ltac:(lia) H) as [-> ->]. now split.
Qed.

(** X15: The encoding determines what was encoded: two calls, with identifiers
    within the width of their types, that return the same bytes were given
    the same identifiers and the same fields. *)
Theorem generateOuterECHExt_injective (id kdfID aeadID id' kdfID' aeadID' : Z)
    (encodedKey payload encodedKey' payload' out : list byte) :
  0 <= id < 256 -> 0 <= kdfID < 65536 -> 0 <= aeadID < 65536 ->
  0 <= id' < 256 -> 0 <= kdfID' < 65536 -> 0 <= aeadID' < 65536 ->
  generateOuterECHExt id kdfID aeadID encodedKey payload = Ok out ->
  generateOuterECHExt id' kdfID' aeadID' encodedKey' payload' = Ok out ->
  id = id' /\ kdfID = kdfID' /\ aeadID = aeadID'
  /\ encodedKey = encodedKey' /\ payload = payload'.
Proof.
  intros Hid Hkdf Haead Hid' Hkdf' Haead' H H'.
  apply generateOuterECHExt_Ok in H as (Hk & Hp & ->).
  apply generateOuterECHExt_Ok in H' as (Hk' & Hp' & H').
  cbn [app] in H'. injection H' as Hk1 Hk2 Ha1 Ha2 Hi Hl1 Hl2 Hrest.
  pose proof (len_nonneg encodedKey). pose proof (len_nonneg encodedKey').
  pose proof (len_nonneg payload). pose proof (len_nonneg payload').
  assert (Ekdf : kdfID = kdfID')
    by (apply bigEndian16_inj; try assumption; unfold bigEndian16; congruence).
  assert (Eaead : aeadID = aeadID')
    by (apply bigEndian16_inj; try assumption; unfold bigEndian16; congruence).
  assert (Eid : id = id').
  { rewrite <- (unsigned_of_Z_small id Hid), <- (unsigned_of_Z_small id' Hid').
    now rewrite Hi. }
  assert (Elen : len encodedKey = len encodedKey')
    by (apply bigEndian16_inj; try lia; unfold bigEndian16; congruence).
  apply app_inj_len in Hrest as [-> Hrest]; [ | exact Elen].
  cbn [app] in Hrest. injection Hrest as _ _ ->.
  now repeat split.
Qed.

Lemma generateOuterECHExt_injective_witness :
  7 = 7 /\ 1 = 1 /\ 2 = 2
  /\ [Byte.x0a; Byte.x0b] = [Byte.x0a; Byte.x0b]
  /\ [Byte.x01; Byte.x02; Byte.x03] = [Byte.x01; Byte.x02; Byte.x03].
Proof.
  apply (generateOuterECHExt_injective 7 1 2 7 1 2
           [Byte.x0a; Byte.x0b] [Byte.x01; Byte.x02; Byte.x03]
           [Byte.x0a; Byte.x0b] [Byte.x01; Byte.x02; Byte.x03]
           [Byte.x00; Byte.x00; Byte.x01; Byte.x00; Byte.x02; Byte.x07;
            Byte.x00; Byte.x02; Byte.x0a; Byte.x0b;
            Byte.x00; Byte.x03; Byte.x01; Byte.x02; Byte.x03]);
    try lia; reflexivity.
Defined.

(** ** The domain-name validator: what it rejects, and joining names *)

Lemma Split_nonempty (s : gostring) (sep : byte) : Split s sep <> [].
Proof.
  destruct s as [ | c t]; cbn [Split]; [discriminate | ].
  destruct (Byte.eqb c sep); [discriminate | ].
  destruct (Split t sep); discriminate.
Qed.

(** Splitting distributes over a separator. *)
Lemma Split_app (a b : gostring) (sep : byte) :
  Split (a ++ sep :: b) sep = Split a sep ++ Split b sep.
Proof.
  induction a as [ | c a IH]; cbn [app Split].
  - now rewrite (@Byte.byte_dec_lb sep sep eq_refl).
  - destruct (Byte.eqb c sep); rewrite IH; [reflexivity | ].
    pose proof (Split_nonempty a sep).
    destruct (Split a sep); [contradiction | reflexivity].
Qed.

Lemma Split_no_sep (l : gostring) (sep : byte) :
  ~ In sep l -> Split l sep = [l].
Proof.
  induction l as [ | c l IH]; intros Hno; [reflexivity | ].
  cbn [Split]. destruct (Byte.eqb c sep) eqn:E.
  - apply Byte.byte_dec_bl in E. exfalso. apply Hno. now left.
  - rewrite IH; [reflexivity | ]. intros H. apply Hno. now right.
Qed.

Lemma validDNSName_false (name : gostring) :
  ~ nameOk len name -> validDNSName name = false.
Proof.
  intros H. destruct (validDNSName name) eqn:E; [ | reflexivity].
  apply validDNSName_bytes in E. contradiction.
Qed.

Lemma validDNSName_empty_piece (name : gostring) :
  In [] (Split name Byte.x2e) -> validDNSName name = false.
Proof.
  intros Hin. apply validDNSName_false. intros (_ & _ & Hall).
  rewrite Forall_forall in Hall. now destruct (Hall [] Hin) as (H & _).
Qed.

(** X16: A name with an empty label is rejected: a trailing dot, a leading dot
    and two dots in a row each make one. *)
Theorem validDNSName_empty_label (a b : gostring) :
  validDNSName (a ++ [Byte.x2e]) = false
  /\ validDNSName (Byte.x2e :: a) = false
  /\ validDNSName (a ++ Byte.x2e :: Byte.x2e :: b) = false.
Proof.
  repeat split; apply validDNSName_empty_piece.
  - rewrite Split_app. apply in_or_app. right. now left.
  - now left.
  - rewrite Split_app. apply in_or_app. right. now left.
Qed.

(** X17: A name with a byte that is neither a dot nor an ASCII letter, digit or
    hyphen -- an underscore, a space, any byte of a non-ASCII character -- is
    rejected. *)
Theorem validDNSName_forbidden_byte (name : gostring) (b : byte) :
  In b name -> b <> Byte.x2e -> ~ alnumOrHyphen b -> validDNSName name = false.
Proof.
  intros Hin Hdot Hbad. apply validDNSName_false. intros (_ & _ & Hall).
  destruct (Split_In Byte.x2e name b Hin) as [-> | (l & Hl & Hbl)]; [now apply Hdot | ].
  rewrite Forall_forall in Hall. destruct (Hall l Hl) as (_ & Hl_all & _).
  rewrite Forall_forall in Hl_all. now apply Hbad, Hl_all.
Qed.

Lemma validDNSName_forbidden_byte_witness :
  validDNSName (bytes_of "_dmarc.example.com") = false.
Proof.
  apply (validDNSName_forbidden_byte (bytes_of "_dmarc.example.com") Byte.x5f).
  - now left.
  - discriminate.
  - unfold alnumOrHyphen. cbn. lia.
Defined.

Lemma labelOk_no_dot (l : gostring) : labelOk l -> ~ In Byte.x2e l.
Proof.
  intros (_ & Hall & _) Hin. rewrite Forall_forall in Hall.
  apply Hall in Hin. unfold alnumOrHyphen in Hin. cbn in Hin. lia.
Qed.

(** X18: Names join: a label that passes the label loop, or a whole name that
    validates, put with a dot before a name that validates gives a name that
    validates, as long as the total stays within 253 bytes; there is no
    limit on a label's own length. *)
Theorem validDNSName_join (a b : gostring) :
  validLabel a = true \/ validDNSName a = true ->
  validDNSName b = true ->
  len a + 1 + len b <= 253 ->
  validDNSName (a ++ Byte.x2e :: b) = true.
Proof.
  intros Ha Hb Hlen. apply validDNSName_bytes.
  apply validDNSName_bytes in Hb as (_ & Hnb & Hallb).
  assert (Halla : Forall labelOk (Split a Byte.x2e)).
  { destruct Ha as [Ha | Ha].
    - apply validLabel_spec in Ha.
      rewrite Split_no_sep by (now apply labelOk_no_dot).
      now constructor.
    - now apply validDNSName_bytes in Ha as (_ & _ & Ha). }
  unfold nameOk. rewrite Split_app. repeat split.
  - rewrite len_app, len_cons. lia.
  - rewrite len_app. pose proof (len_nonneg (Split a Byte.x2e)). lia.
  - apply Forall_app. now split.
Qed.

Lemma validDNSName_join_witness :
  validDNSName (bytes_of "www" ++ Byte.x2e :: bytes_of "example.com") = true.
Proof.
  apply (validDNSName_join (bytes_of "www") (bytes_of "example.com")).
  - left. reflexivity.
  - reflexivity.
  - cbn. lia.
Defined.

(** ** The ECHConfigList decoder on a recognized entry cut short *)









